(** * The VRP task of pytorch-drl4vrp (src/tasks/vrp.py)

    A shallow embedding of [VehicleRoutingDataset] ([__init__],
    [update_mask], [update_dynamic]) and of [reward].

    Tensors of dtype float hold IEEE binary32 values; they are modelled
    with the Standard Library's [SpecFloat] at precision 24 and maximal
    exponent 128, so that every scalar operation of the source rounds the
    way it does on the machine.  Integer tensors ([.int()], index tensors,
    byte masks) are lists of [Z] and [bool].

    Conventions of the tensor library the source is written for:
    - [1 - m] on a byte mask is its negation;
    - the order in which [sum] adds the floats of a row is not fixed;
    - an integer tensor times the float [0.] is the integer tensor of
      zeros;
    - a Python number used as the scalar of a float tensor operation is
      converted to binary32 first;
    - the demands drawn by [torch.randint] are divided by [max_load] in
      binary32, whether the draw is a float tensor or an integer tensor
      promoted by the division;
    - an in-place assignment through a view ([tensor[:, 0]]) of a clone
      leaves the argument of the function untouched, so the functions are
      written as functions from the old state to the new one. *)

From Stdlib Require Import ZArith Bool Lia.
From Stdlib Require Import SpecFloat.
From stdpp Require Import base option list.

Open Scope Z_scope.

(** ** Binary32 scalars *)

Module F32.

Definition t := spec_float.

Definition prec : Z := 24.
Definition emax : Z := 128.

Definition zero : t := S754_zero false.
Definition add : t -> t -> t := SFadd prec emax.
Definition sub : t -> t -> t := SFsub prec emax.
Definition mul : t -> t -> t := SFmul prec emax.
Definition div : t -> t -> t := SFdiv prec emax.
Definition sqrt : t -> t := SFsqrt prec emax.
Definition ltb : t -> t -> bool := SFltb.

(** Conversion of an integer to a float ([.float()] on an int tensor, and
    a Python number used as the scalar of a tensor operation): round to
    nearest, ties to even. *)
Definition of_Z (z : Z) : t := binary_normalize prec emax z 0 false.

Definition one : t := of_Z 1.

Definition int_min : Z := - 2 ^ 31.
Definition int_max : Z := 2 ^ 31 - 1.

(** [.int()]: conversion to a 32-bit integer truncates toward zero.  A
    value that is not a number, infinite or too large has no defined
    result in C; x86 stores the "integer indefinite" value [- 2 ^ 31]. *)
Definition to_int (x : t) : Z :=
  match x with
  | S754_zero _ => 0
  | S754_finite s m e =>
      let v := cond_Zopp s (Z.shiftl (Zpos m) e) in
      if (int_min <=? v) && (v <=? int_max) then v else int_min
  | _ => int_min
  end.

(** [torch.clamp(x, min=0)] *)
Definition clamp_min0 (x : t) : t := if ltb x zero then zero else x.

End F32.

Abbreviation f32 := F32.t.

Arguments F32.add : simpl never.
Arguments F32.sub : simpl never.
Arguments F32.mul : simpl never.
Arguments F32.div : simpl never.
Arguments F32.sqrt : simpl never.
Arguments F32.of_Z : simpl never.
Arguments F32.to_int : simpl never.
Arguments F32.clamp_min0 : simpl never.

(** ** Tensor operations

    A tensor of shape (batch, seq_len) is a list of rows.  The operations
    below are the indexing and assignment forms the source uses; each one
    returns [None] where torch raises (a mask or an index vector whose
    length is not the batch size, an index outside its row). *)

Section Tensor.
Context {A : Type}.

(** [m.any()] on a byte mask *)
Definition any (m : list bool) : bool := existsb id m.

(** [r[0] = v] on one row *)
Definition put0 (v : A) (r : list A) : option (list A) :=
  match r with
  | [] => None
  | _ :: r' => Some (v :: r')
  end.

(** [r[1:] = v] on one row *)
Definition fill_from1 (v : A) (r : list A) : list A :=
  take 1 r ++ replicate (length r - 1)%nat v.

(** [r[:] = v] on one row *)
Definition fill (v : A) (r : list A) : list A := replicate (length r) v.

(** [t[sel, ...] = ...]: the rows that the byte mask [sel] selects are
    updated by [f]; the mask has one entry per row. *)
Definition masked_rows (sel : list bool) (f : list A → option (list A))
    (t : list (list A)) : option (list (list A)) :=
  if decide (length sel = length t)
  then mapM (λ br : bool * list A, if br.1 then f br.2 else Some br.2) (zip sel t)
  else None.

(** [t[sel.squeeze()] = v] for a byte mask [sel] of shape (batch,).
    [squeeze] drops the dimension of a mask of one entry: the mask is then
    0-dim and, when it is set, selects the whole of [t]. *)
Definition squeezed_fill (sel : list bool) (v : A) (t : list (list A))
    : option (list (list A)) :=
  match sel with
  | [b] => Some (if b then fill v <$> t else t)
  | _ => masked_rows sel (λ r, Some (fill v r)) t
  end.

(** [t[sel.squeeze(), 0] = v].  After a mask of shape (batch,) the index
    0 names slot 0 of the selected rows.  After the 0-dim mask of a batch
    of one it names the first dimension of [t]: the whole of row 0 is
    filled. *)
Definition squeezed_put0 (sel : list bool) (v : A) (t : list (list A))
    : option (list (list A)) :=
  match sel with
  | [b] => if b then r ← t !! 0%nat; Some (<[0%nat := fill v r]> t) else Some t
  | _ => masked_rows sel (put0 v) t
  end.

(** [t[:, 0]] *)
Definition col0 (t : list (list A)) : option (list A) := mapM head t.

(** [t[:, 0] = vals] *)
Definition set_col0 (t : list (list A)) (vals : list A) : option (list (list A)) :=
  if decide (length vals = length t)
  then mapM (λ rv : list A * A, put0 rv.2 rv.1) (zip t vals)
  else None.

(** [torch.gather(t, 1, idx.unsqueeze(1))] *)
Definition gather (t : list (list A)) (idx : list Z) : option (list A) :=
  if decide (length idx = length t)
  then mapM (λ ri : list A * Z, if ri.2 <? 0 then None else ri.1 !! Z.to_nat ri.2)
            (zip t idx)
  else None.

(** [t.scatter_(1, idx.unsqueeze(1), src)] *)
Definition scatter_ (t : list (list A)) (idx : list Z) (src : list A)
    : option (list (list A)) :=
  if decide (length idx = length t ∧ length src = length t)
  then mapM (λ ris : list A * Z * A,
               let '(r, i, s) := ris in
               if (0 <=? i) && (i <? Z.of_nat (length r))
               then Some (<[Z.to_nat i := s]> r) else None)
            (zip (zip t idx) src)
  else None.

(** [self.masked_scatter_(mask, source)]: the elements of [source] are
    copied, in order from its first one, into the positions of [self]
    where the mask is set. *)
Fixpoint masked_scatter_ (self : list A) (mask : list bool) (source : list A)
    : option (list A) :=
  match self, mask with
  | [], [] => Some []
  | x :: self', b :: mask' =>
      if b then
        match source with
        | [] => None
        | s :: source' => cons s <$> masked_scatter_ self' mask' source'
        end
      else cons x <$> masked_scatter_ self' mask' source
  | _, _ => None
  end.

(** [t[idx]] for an index vector *)
Definition index_select (t : list A) (idx : list nat) : option (list A) :=
  mapM (λ i, t !! i) idx.

(** [t[idx] = vals] where [vals] has shape (len(idx), 1): row [idx[k]]
    is filled with [vals[k]]. *)
Fixpoint index_put_rows (t : list (list A)) (idx : list nat) (vals : list A)
    : option (list (list A)) :=
  match idx, vals with
  | [], [] => Some t
  | i :: idx', v :: vals' =>
      r ← t !! i;
      index_put_rows (<[i := fill v r]> t) idx' vals'
  | _, _ => None
  end.

End Tensor.

(** [m.nonzero().squeeze()]: the positions where the mask is set *)
Fixpoint nonzero_from (k : nat) (m : list bool) : list nat :=
  match m with
  | [] => []
  | b :: m' => if b then k :: nonzero_from (S k) m' else nonzero_from (S k) m'
  end.
Definition nonzero (m : list bool) : list nat := nonzero_from 0 m.

(** [r.sum()] on a row of integers *)
Definition row_sum (r : list Z) : Z := foldr Z.add 0 r.

(** ** The dynamic state

    [dynamic] has shape (batch, 2, seq_len): feature 0 of an instance is
    its row of loads, feature 1 its row of demands; slot 0 is the depot. *)

Record Feat (A : Type) := mkFeat { feat0 : list A; feat1 : list A }.
Arguments mkFeat {A} _ _.
Arguments feat0 {A} _.
Arguments feat1 {A} _.

Definition Feat_map {A B} (f : A → B) (x : Feat A) : Feat B :=
  mkFeat (f <$> feat0 x) (f <$> feat1 x).

Definition b2z (b : bool) : Z := if b then 1 else 0.
Definition ne0 (z : Z) : Z := b2z (negb (z =? 0)).

Section Dataset.
(** [self.max_load] *)
Variable max_load : Z.

(** One entry of [(self.max_load * dynamic.data).int()] *)
Definition to_units (x : f32) : Z := F32.to_int (F32.mul (F32.of_Z max_load) x).

(** One entry of [(x * self.max_load).int().float()] *)
Definition int_float (x : f32) : f32 :=
  F32.of_Z (F32.to_int (F32.mul x (F32.of_Z max_load))).

(** [demands[:, 1:].eq(0).all()] *)
Definition no_demand_left (demands : list (list Z)) : bool :=
  forallb (λ r, forallb (Z.eqb 0) (drop 1 r)) demands.

(** [update_mask(self, mask, dynamic, chosen_idx)].  The argument [mask]
    is not read by the source and is left out; [chosen_idx] has no
    default here (the source reads it as soon as the termination test
    fails).  The byte mask and the result of [.float()] on it hold 0 and 1
    only; they are kept as integers. *)
Definition update_mask (dynamic : list (Feat f32)) (chosen_idx : list Z)
    : option (list (list Z)) :=
  let dint := Feat_map to_units <$> dynamic in
  let loads := feat0 <$> dint in
  let demands := feat1 <$> dint in
  if no_demand_left demands then Some (fmap (λ d, d * 0) <$> demands)
  else
    let new_mask := fmap ne0 <$> demands in
    let repeat_home := (λ c, negb (c =? 0)) <$> chosen_idx in
    new_mask ← (if any repeat_home
                then masked_rows repeat_home (put0 1) new_mask
                else Some new_mask);
    new_mask ← (if any (negb <$> repeat_home)
                then masked_rows (negb <$> repeat_home) (put0 0) new_mask
                else Some new_mask);
    loads0 ← col0 loads;
    let has_no_load := (λ l, b2z (l =? 0)) <$> loads0 in
    let has_no_demand := (λ r, b2z (row_sum (drop 1 r) =? 0)) <$> demands in
    let combined := zip_with (λ a b, 0 <? a + b) has_no_load has_no_demand in
    new_mask ← (if any combined
                then new_mask ← masked_rows combined (put0 1) new_mask;
                     masked_rows combined (λ r, Some (fill_from1 0 r)) new_mask
                else Some new_mask);
    Some new_mask.

(** [update_dynamic(self, dynamic, chosen_idx)] *)
Definition update_dynamic (dynamic : list (Feat f32)) (chosen_idx : list Z)
    : option (list (Feat f32)) :=
  let visit := (λ c, negb (c =? 0)) <$> chosen_idx in
  let depot := (λ c, c =? 0) <$> chosen_idx in
  let all_loads := feat0 <$> dynamic in
  let all_demands := feat1 <$> dynamic in
  load ← gather all_loads chosen_idx;
  demand ← gather all_demands chosen_idx;
  '(all_loads, all_demands) ←
    (if any visit then
       let load_int := int_float <$> load in
       let demand_int := int_float <$> demand in
       let new_load :=
         zip_with (λ l d, F32.div (F32.clamp_min0 (F32.sub l d)) (F32.of_Z max_load))
                  load_int demand_int in
       let new_demand :=
         zip_with (λ d l, F32.div (F32.clamp_min0 (F32.sub d l)) (F32.of_Z max_load))
                  demand_int load_int in
       new_demand ← masked_scatter_ demand visit new_demand;
       let visit_idx := nonzero visit in
       vals ← index_select new_load visit_idx;
       all_loads ← index_put_rows all_loads visit_idx vals;
       all_demands ← scatter_ all_demands chosen_idx new_demand;
       let visit := (λ b : bool, if b then F32.one else F32.zero) <$> visit in
       demands0 ← col0 all_demands;
       let keep := zip_with (λ d v, F32.mul d (F32.sub F32.one v)) demands0 visit in
       let mark := zip_with (λ l v, F32.mul (F32.sub l F32.one) v) new_load visit in
       all_demands ← set_col0 all_demands (zip_with F32.add keep mark);
       Some (all_loads, all_demands)
     else Some (all_loads, all_demands));
  '(all_loads, all_demands) ←
    (if any depot then
       (* depot.ne(0) is depot; the masks are squeezed *)
       all_loads ← squeezed_fill depot F32.one all_loads;
       all_demands ← squeezed_put0 depot F32.zero all_demands;
       Some (all_loads, all_demands)
     else Some (all_loads, all_demands));
  Some (zip_with mkFeat all_loads all_demands).

End Dataset.

(** ** Instance generation: [VehicleRoutingDataset.__init__] *)

Inductive error :=
  | ValueError          (* raised by the constructor's own check *)
  | RuntimeError        (* torch: negative dimension, empty range of randint *)
  | IndexError          (* torch: index 0 of a dimension of size 0 *)
  | OverflowError       (* Python: int too large to convert to float *)
  | ZeroDivisionError.  (* Python: division by float zero *)

(** [float(z)] raises [OverflowError] when the integer [z], rounded to the
    nearest double, does not fit: from [2^1024 - 2^970] on in absolute
    value. *)
Definition float_overflows (z : Z) : bool := 2 ^ 1024 - 2 ^ 970 <=? Z.abs z.


(** The generator that [torch.manual_seed(seed)] installs, as the two
    streams the constructor draws from: [torch.rand] reads uniform floats,
    [torch.randint] reads integers that it reduces to the asked range. *)
Record generator := mkGenerator { uniform : nat → f32; integer : nat → Z }.

Record VehicleRoutingDataset := mkDataset {
  num_samples : Z;
  max_load : Z;
  max_demand : Z;
  static : list (list (list f32));   (* (num_samples, 2, input_size + 1) *)
  dynamic : list (Feat f32)          (* (num_samples, 2, input_size + 1) *)
}.

Section Init.
Variable manual_seed : Z → generator.

(** [torch.rand(shape)] and [torch.randint(low, high, shape)] for a shape
    (n, k, m), read in row-major order. *)
Definition tensor3 {A} (n k m : nat) (f : nat → A) : list (list (list A)) :=
  (λ i, (λ j, (λ l, f ((i * k + j) * m + l)%nat) <$> seq 0 m) <$> seq 0 k) <$> seq 0 n.

Definition randint (g : generator) (low high : Z) (p : nat) : Z :=
  low + integer g p `mod` (high - low).

Definition init (num_samples input_size max_load max_demand seed : Z)
    : error + VehicleRoutingDataset :=
  if max_load <? max_demand then inl ValueError
  else
    let g := manual_seed seed in
    if (num_samples <? 0) || (input_size + 1 <? 0) then inl RuntimeError
    else
      let n := Z.to_nat num_samples in
      let m := Z.to_nat (input_size + 1) in
      let locations := tensor3 n 2 m (uniform g) in
      if input_size + 1 =? 0 then inl IndexError
      else
        let locations := fmap (M := list) (λ r, F32.zero :: drop 1 r) <$> locations in
        (* max_load / float(max_load) *)
        if float_overflows max_load then inl OverflowError
        else if max_load =? 0 then inl ZeroDivisionError
        else
          let loads := tensor3 n 1 m (λ _, F32.one) in
          if max_demand + 1 <=? 1 then inl RuntimeError
          else
            let demands := tensor3 n 1 m (randint g 1 (max_demand + 1)) in
            let demands :=
              fmap (M := list) (fmap (M := list) (λ d, F32.div (F32.of_Z d) (F32.of_Z max_load)))
                <$> demands in
            let demands :=
              (λ inst, match inst with
                       | (_ :: r) :: rest => (F32.zero :: r) :: rest
                       | _ => inst
                       end) <$> demands in
            inr (mkDataset num_samples max_load max_demand locations
                   (zip_with (λ l d, mkFeat (concat l) (concat d)) loads demands)).

End Init.

(** ** [reward] *)

(** [t.sum(dim)] on a row of floats.  The additions are binary32
    additions; neither their order nor their grouping is fixed by torch
    (its kernels add into several accumulators that start at 0 and
    combine them at the end).  [sums_to l s]: [s] is the result of adding
    the elements of [l] in some order and grouping, zeros included. *)
Inductive sums_to : list f32 → f32 → Prop :=
  | sums_nil : sums_to [] F32.zero
  | sums_one a : sums_to [a] a
  | sums_add l1 l2 s1 s2 :
      sums_to l1 s1 → sums_to l2 s2 → sums_to (l1 ++ l2) (F32.add s1 s2)
  | sums_perm l l' s : l ≡ₚ l' → sums_to l s → sums_to l' s.

(** The functions that may stand for [sum]. *)
Definition summation (tsum : list f32 → f32) : Prop := ∀ l, sums_to l (tsum l).

(** One of them: accumulation from the left, starting at 0. *)
Definition sum_left_to_right (l : list f32) : f32 := foldl F32.add F32.zero l.

(** [r[j]] for an integer index *)
Definition at_index {A} (r : list A) (j : Z) : option A :=
  if j <? 0 then None else r !! Z.to_nat j.

(** The point of index [j] of one instance: [static[i, :, j]] *)
Definition point_at (inst : list (list f32)) (j : Z) : option (list f32) :=
  mapM (λ r, at_index r j) inst.

Section Reward.
(** [torch.sum] along a dimension, and [t.sum(dim)] *)
Variable tsum : list f32 → f32.

(** [reward(static, tour_indices)]: [static] has shape
    (batch, coordinates, seq_len), [tour_indices] has one row of indices
    per instance. *)
Definition reward (static : list (list (list f32))) (tour_indices : list (list Z))
    : option (list f32) :=
  tour_len ←
  mapM (λ i,
          inst ← static !! i;
          idx ← tour_indices !! i;
          (* [idx] expanded over the coordinates, gathered, and permuted:
             tour[t][k] = static[i][k][idx[t]] *)
          tour ← mapM (point_at inst) idx;
          start ← point_at inst 0;
          let y := [start] ++ tour ++ [start] in
          (* y[:, :-1] - y[:, 1:] *)
          let diff := zip_with (zip_with F32.sub) (removelast y) (drop 1 y) in
          let dist := (λ d, F32.sqrt (tsum ((λ x, F32.mul x x) <$> d))) <$> diff in
          Some (tsum dist))
       (seq 0 (length static));
  (* torch.cat(tour_len) raises on the empty list *)
  if decide (tour_len = []) then None else Some tour_len.

End Reward.

(** ** Row-wise reading of [update_mask]

    What [update_mask] leaves in the row of one instance once the
    termination test has not fired: [l0] is the instance's load in slot 0,
    [demands] its row of demands and [c] its last chosen index, all in
    integer units. *)
Definition mask_row (l0 : Z) (demands : list Z) (c : Z) : list Z :=
  if 0 <? b2z (l0 =? 0) + b2z (row_sum (drop 1 demands) =? 0)
  then 1 :: replicate (length demands - 1)%nat 0
  else b2z (negb (c =? 0)) :: (ne0 <$> drop 1 demands).

(** ** Vocabulary of the statements *)

(** The batch and the index vector fit: one chosen index per instance, and
    every instance has its depot slot in both features. *)
Definition well_shaped (dynamic : list (Feat f32)) (chosen_idx : list Z) : Prop :=
  length chosen_idx = length dynamic ∧
  Forall (λ x, feat0 x ≠ [] ∧ feat1 x ≠ []) dynamic.

(** The load of an instance in integer units, as [update_mask] reads it:
    [loads[i, 0]]. *)
Definition load_units (max_load : Z) (x : Feat f32) : option Z :=
  head (to_units max_load <$> feat0 x).

(** The remaining demands of the customers of an instance in integer
    units: [demands[i, 1:]]. *)
Definition customer_units (max_load : Z) (x : Feat f32) : list Z :=
  drop 1 (to_units max_load <$> feat1 x).

(** All customers of the instance are served. *)
Definition finished (max_load : Z) (x : Feat f32) : Prop :=
  Forall (λ d, d = 0) (customer_units max_load x).

(** Two instances that differ at most in the depot slot of the demands. *)
Definition same_but_marker (x y : Feat f32) : Prop :=
  feat0 x = feat0 y ∧ drop 1 (feat1 x) = drop 1 (feat1 y) ∧
  feat1 x ≠ [] ∧ feat1 y ≠ [].

(** The sentence "the mask of an instance is all-zero exactly when all the
    customers of that instance are served", whatever the other instances
    of the batch are. *)
Definition mask_zero_iff_instance_finished (max_load : Z) : Prop :=
  ∀ dynamic chosen_idx m (i : nat) x r,
    well_shaped dynamic chosen_idx →
    update_mask max_load dynamic chosen_idx = Some m →
    dynamic !! i = Some x → m !! i = Some r →
    (Forall (λ b, b = 0) r ↔ finished max_load x).

(** An instance with load [l] and demands [ds] in integer units, stored
    normalized as the constructor and [update_dynamic] store them: the load
    in every slot, each value divided by [max_load]. *)
Definition normalized (max_load k : Z) : f32 :=
  F32.div (F32.of_Z k) (F32.of_Z max_load).

Definition instance_of (max_load l : Z) (ds : list Z) : Feat f32 :=
  mkFeat (replicate (length ds) (normalized max_load l)) (normalized max_load <$> ds).

(** Every instance has [seq_len] slots in both features, and every chosen
    index names one of them. *)
Definition has_shape (seq_len : nat) (dynamic : list (Feat f32)) : Prop :=
  Forall (λ x, length (feat0 x) = seq_len ∧ length (feat1 x) = seq_len) dynamic.

Definition in_range (seq_len : nat) (chosen_idx : list Z) : Prop :=
  Forall (λ c, 0 ≤ c < Z.of_nat seq_len) chosen_idx.

(** The new load and the new demand that [update_dynamic] computes from the
    load [l] and the demand [d] gathered at the chosen index. *)
Definition new_load_of (max_load : Z) (l d : f32) : f32 :=
  F32.div (F32.clamp_min0 (F32.sub (int_float max_load l) (int_float max_load d)))
          (F32.of_Z max_load).

Definition new_demand_of (max_load : Z) (l d : f32) : f32 :=
  F32.div (F32.clamp_min0 (F32.sub (int_float max_load d) (int_float max_load l)))
          (F32.of_Z max_load).

(** The value that the line
    [all_demands[:, 0] = all_demands[:, 0] * (1 - visit) + (new_load[:, 0] - 1) * visit]
    stores for a visiting instance whose depot slot holds [d0]. *)
Definition marker_of (d0 new_load : f32) : f32 :=
  F32.add (F32.mul d0 (F32.sub F32.one F32.one))
          (F32.mul (F32.sub new_load F32.one) F32.one).

(** ** The tour length in the words of its description

    The Euclidean distance of two points, and the sum of the distances of
    the consecutive points of a path, with the sum [tsum]. *)
Section TourLength.
Variable tsum : list f32 → f32.

Definition euclid (p q : list f32) : f32 :=
  F32.sqrt (tsum ((λ x, F32.mul x x) <$> zip_with F32.sub p q)).

Fixpoint legs (path : list (list f32)) : list f32 :=
  match path with
  | p :: (q :: _) as rest => euclid p q :: legs rest
  | _ => []
  end.

Definition path_length (path : list (list f32)) : f32 := tsum (legs path).

End TourLength.

(** The sign bit of a float is clear (or the float is not a number). *)
Definition sign_clear (x : f32) : Prop :=
  match x with
  | S754_zero s | S754_infinity s | S754_finite s _ _ => s = false
  | S754_nan => True
  end.

(** ** Runs of the decision loop

    The caller applies [update_dynamic] once per decision step. *)
Fixpoint apply_choices (max_load : Z) (dynamic : list (Feat f32))
    (choices : list (list Z)) : option (list (Feat f32)) :=
  match choices with
  | [] => Some dynamic
  | chosen_idx :: rest =>
      dynamic' ← update_dynamic max_load dynamic chosen_idx;
      apply_choices max_load dynamic' rest
  end.

(** The state that a successful construction holds. *)
Definition generated (r : error + VehicleRoutingDataset) : list (Feat f32) :=
  match r with
  | inr ds => dynamic ds
  | inl _ => []
  end.

(** A state read in integer units, slot by slot. *)
Definition units_view (max_load : Z) (d : option (list (Feat f32)))
    : option (list (Feat Z)) :=
  match d with
  | Some l => Some (Feat_map (to_units max_load) <$> l)
  | None => None
  end.

(** A generator whose integer stream is the given list (0 past its end)
    and whose floats are all 0. *)
Definition stream_generator (ints : list Z) (seed : Z) : generator :=
  mkGenerator (λ _, F32.zero) (λ p, default 0 (ints !! p)).

(** The transition in exact integer units, in the words of its
    description: a visit of a customer serves [min(L, D)], a visit of the
    depot refills the vehicle. *)
Definition exact_transition (capacity : Z) (s : Z * list Z) (c : Z) : Z * list Z :=
  let '(L, demands) := s in
  if c =? 0 then (capacity, demands)
  else
    let D := default 0 (demands !! Z.to_nat c) in
    let served := L `min` D in
    (L - served, <[Z.to_nat c := D - served]> demands).

Definition exact_run (capacity : Z) (s : Z * list Z) (cs : list Z) : Z * list Z :=
  foldl (exact_transition capacity) s cs.


(** All the slots of the row of loads hold one value. *)
Definition uniform_loads (seq_len : nat) (x : Feat f32) : Prop :=
  ∃ v, feat0 x = replicate seq_len v.

(** ** Concrete batches used below

    Capacity 20, three customers.  [served_instance] has nothing left to
    serve, [fresh_instance] has its three demands of 9 and a full load. *)
Definition served_instance : Feat f32 := instance_of 20 20 [0; 0; 0; 0].
Definition fresh_instance : Feat f32 := instance_of 20 20 [0; 9; 9; 9].
Definition marked_instance : Feat f32 :=
  mkFeat (feat0 fresh_instance) (normalized 20 (-9) :: drop 1 (feat1 fresh_instance)).

(** One instance whose only customer sits at (0.6, 0.8), the depot at the
    origin. *)
Definition one_customer : list (list f32) :=
  [[F32.zero; normalized 5 3]; [F32.zero; normalized 5 4]].

(** Two samples of three customers, capacity 20, every demand 9. *)
Definition demo_batch : list (Feat f32) :=
  generated (init (stream_generator (replicate 8 8)) 2 3 20 9 1234).

(** One sample of two customers with demands 9 and 6, capacity 23. *)
Definition drift_batch : list (Feat f32) :=
  generated (init (stream_generator [0; 8; 5]) 1 2 23 9 1234).

(** One sample of four customers with demands 9, 6, 9 and 7, capacity 41. *)
Definition long_drift_batch : list (Feat f32) :=
  generated (init (stream_generator [0; 8; 5; 8; 6]) 1 4 41 9 1234).

(** Every load or demand [k] of [0 .. capacity] is read back as [k] after
    it is stored normalized. *)
Definition reads_back (capacity : Z) : bool :=
  forallb (λ k, to_units capacity (normalized capacity k) =? k) (seqZ 0 (capacity + 1)).



(** ** Further vocabulary *)

(** Two instances with the same demands and the same load in slot 0. *)
Definition same_but_load_tail (x y : Feat f32) : Prop :=
  feat1 x = feat1 y ∧ head (feat0 x) = head (feat0 y) ∧
  feat0 x ≠ [] ∧ feat0 y ≠ [].

(** The index vectors of a run fit a batch of [batch] instances of
    [seq_len] nodes. *)
Definition choices_fit (batch seq_len : nat) (choices : list (list Z)) : Prop :=
  Forall (λ chosen_idx, length chosen_idx = batch ∧ in_range seq_len chosen_idx) choices.

(** A float that is a number and not infinite. *)
Definition finite (x : f32) : Prop :=
  match x with
  | S754_zero _ | S754_finite _ _ _ => True
  | _ => False
  end.

(** ** [__len__] and [__getitem__] *)

Definition len (ds : VehicleRoutingDataset) : Z := num_samples ds.

(** [t[idx]] for an integer index into the first dimension of a tensor:
    a negative index counts from the end, an index outside
    [-len, len) raises. *)
Definition tensor_index {A} (t : list A) (idx : Z) : option A :=
  let n := Z.of_nat (length t) in
  if (0 <=? idx) && (idx <? n) then t !! Z.to_nat idx
  else if (- n <=? idx) && (idx <? 0) then t !! Z.to_nat (idx + n)
  else None.

(** [__getitem__(idx)] returns
    [(self.static[idx], self.dynamic[idx], self.static[idx, :, 0:1])]. *)
Definition getitem (ds : VehicleRoutingDataset) (idx : Z)
    : option (list (list f32) * Feat f32 * list (list f32)) :=
  s ← tensor_index (static ds) idx;
  d ← tensor_index (dynamic ds) idx;
  s0 ← tensor_index (static ds) idx;
  Some (s, d, fmap (M := list) (take 1) s0).

(** ** [render]

    What [render] hands to the plotting library, panel by panel: the
    lines drawn by [ax.plot] with their labels, the points of the first
    [ax.scatter] and the point of the second one.  Closing, laying out
    and saving the figure are left out. *)

Record panel := mkPanel {
  lines : list (nat * list f32 * list f32);   (* (label, x values, y values) *)
  points : list f32 * list f32;
  star : f32 * f32
}.

(** [l[low:high]] *)
Definition slice {A} (l : list A) (low high : nat) : list A :=
  take (high - low) (drop low l).

(** The loop over [range(len(where) - 1)]: consecutive depot positions
    [low], [high] give a line unless [low + 1 == high]. *)
Definition subtour_lines (x y : list f32) (where_ : list nat)
    : list (nat * list f32 * list f32) :=
  omap (λ j : nat,
          low ← where_ !! j;
          high ← where_ !! S j;
          if (low + 1 =? high)%nat then None
          else Some (j, slice x low (high + 1), slice y low (high + 1)))
       (seq 0 (length where_ - 1)).

Definition render (static : list (list (list f32))) (tour_indices : list (list Z))
    : option (list panel) :=
  let num_plots : nat :=
    if 3 <=? Z.sqrt (Z.of_nat (length tour_indices)) then 3%nat else 1%nat in
  mapM (λ i : nat,
          idx ← tour_indices !! i;
          inst ← static !! i;
          (* data[k][t] = static[i][k][idx[t]] *)
          data ← mapM (λ row, mapM (at_index row) idx) inst;
          start ← mapM (λ row : list f32, row !! 0%nat) inst;
          start0 ← start !! 0%nat;
          data0 ← data !! 0%nat;
          start1 ← start !! 1%nat;
          data1 ← data !! 1%nat;
          let x := [start0] ++ data0 ++ [start0] in
          let y := [start1] ++ data1 ++ [start1] in
          let idx := [0] ++ idx ++ [0] in
          let where_ := nonzero ((λ c, c =? 0) <$> idx) in
          x0 ← x !! 0%nat;
          y0 ← y !! 0%nat;
          Some (mkPanel (subtour_lines x y where_) (x, y) (x0, y0)))
       (seq 0 (num_plots * num_plots)).

(** The sub-tours of a tour in the words of the comment of [render]: the
    runs of customers between two visits of the depot (the start and the
    end of the tour count as visits), each with the number of the
    depot-to-depot interval it fills; an interval without a customer gives
    no sub-tour. *)
Fixpoint sub_tours_from (j : nat) (acc : list Z) (tour : list Z) : list (nat * list Z) :=
  match tour with
  | [] => if decide (acc = []) then [] else [(j, acc)]
  | c :: tour' =>
      if c =? 0
      then (if decide (acc = []) then [] else [(j, acc)]) ++ sub_tours_from (S j) [] tour'
      else sub_tours_from j (acc ++ [c]) tour'
  end.

Definition sub_tours (tour : list Z) : list (nat * list Z) := sub_tours_from 0 [] tour.

(** The same loop by recursion on the list of depot positions, the label
    counting the pairs. *)
Fixpoint lines_of (x y : list f32) (j : nat) (where_ : list nat)
    : list (nat * list f32 * list f32) :=
  match where_ with
  | low :: (high :: _) as rest =>
      (if (low + 1 =? high)%nat then []
       else [(j, slice x low (high + 1), slice y low (high + 1))])
      ++ lines_of x y (S j) rest
  | _ => []
  end.

(** A line of a panel is the drawing of a sub-tour: it has its label, and
    its x and y values are the coordinates of the depot, of the customers
    of the sub-tour in order, and of the depot again. *)
Definition draws (row0 row1 : list f32) (st : nat * list Z)
    (line : nat * list f32 * list f32) : Prop :=
  line.1.1 = st.1 ∧
  Forall2 (λ c v, at_index row0 c = Some v) ([0] ++ st.2 ++ [0]) line.1.2 ∧
  Forall2 (λ c v, at_index row1 c = Some v) ([0] ++ st.2 ++ [0]) line.2.

(** ** Row-wise reading of the masked assignments *)

Section MaskedAssignments.
Context {A : Type}.
Implicit Types (t : list (list A)) (sel : list bool).

Lemma masked_rows_Some sel (f : list A → option (list A)) (g : list A → list A) t :
  length sel = length t →
  Forall (λ r, f r = Some (g r)) t →
  masked_rows sel f t = Some (zip_with (λ (b : bool) r, if b then g r else r) sel t).
Proof.
  intros Hlen Hf. unfold masked_rows. rewrite decide_True by done.
  apply mapM_Some_2. revert sel Hlen.
  induction Hf as [|r t Hr _ IH]; intros [|b sel] Hlen; simplify_eq/=;
    constructor; [by destruct b|by apply IH].
Qed.

Lemma zip_with_unselected sel (g : list A → list A) t :
  any sel = false → length sel = length t →
  zip_with (λ (b : bool) r, if b then g r else r) sel t = t.
Proof.
  revert t. induction sel as [|b sel IH]; intros [|r t] Hany Hlen;
    simplify_eq/=; [done|].
  apply orb_false_iff in Hany as [-> Hany]. simpl. f_equal. by apply IH.
Qed.

(** A guarded assignment [if sel.any(): t[sel, 0] = v] acts on each row by
    its own mask bit. *)
Lemma guarded_put0 sel (v : A) t :
  length sel = length t → Forall (λ r, r ≠ []) t →
  (if any sel then masked_rows sel (put0 v) t else Some t)
  = Some (zip_with (λ (b : bool) r, if b then v :: drop 1 r else r) sel t).
Proof.
  intros Hlen Hne. destruct (any sel) eqn:Hany.
  - apply masked_rows_Some; [done|].
    eapply Forall_impl; [exact Hne|]. by intros [|x r] ?.
  - by rewrite zip_with_unselected.
Qed.

Lemma col0_Some t :
  Forall (λ r, r ≠ []) t → ∃ c, col0 t = Some c ∧ length c = length t ∧
    ∀ i r, t !! i = Some r → c !! i = head r.
Proof.
  induction 1 as [|r t Hr _ (c & Hc & Hlen & Hi)].
  - exists []. by split_and!.
  - destruct r as [|x r]; [done|]. exists (x :: c). split_and!.
    + apply mapM_Some_2. constructor; [done|]. by apply mapM_Some_1.
    + simpl. by rewrite Hlen.
    + intros [|i] r'; simpl; [by intros [= <-]|apply Hi].
Qed.

End MaskedAssignments.

Ltac solve_length :=
  repeat first [rewrite length_zip_with | rewrite length_fmap
               | rewrite length_replicate | rewrite length_insert ];
  simpl in *; lia.

Section GuardedPasses.
Context {A : Type}.

Lemma zip_with_twice sel (g1 g2 : list A → list A) (t : list (list A)) :
  zip_with (λ (b : bool) r, if b then g2 r else r) sel
    (zip_with (λ (b : bool) r, if b then g1 r else r) sel t)
  = zip_with (λ (b : bool) r, if b then g2 (g1 r) else r) sel t.
Proof.
  revert t. induction sel as [|b sel IH]; intros [|r t]; simpl; [done..|].
  rewrite IH. by destruct b.
Qed.

Lemma guarded_rows2 sel (f1 f2 : list A → option (list A)) g1 g2 (t : list (list A)) :
  length sel = length t →
  Forall (λ r, f1 r = Some (g1 r)) t → (∀ r, f2 r = Some (g2 r)) →
  (if any sel then nm ← masked_rows sel f1 t; masked_rows sel f2 nm else Some t)
  = Some (zip_with (λ (b : bool) r, if b then g2 (g1 r) else r) sel t).
Proof.
  intros Hlen H1 H2. destruct (any sel) eqn:Hany.
  - rewrite (masked_rows_Some sel f1 g1) by done. simpl.
    rewrite (masked_rows_Some sel f2 g2).
    + by rewrite zip_with_twice.
    + solve_length.
    + by apply Forall_forall.
  - by rewrite zip_with_unselected.
Qed.
End GuardedPasses.

Lemma mask_row_passes (l0 : Z) (d : list Z) (c : Z) :
  d ≠ [] →
  let rh := negb (c =? 0) in
  let r1 := if rh then 1 :: drop 1 (ne0 <$> d) else ne0 <$> d in
  let r2 := if negb rh then 0 :: drop 1 r1 else r1 in
  (if 0 <? b2z (l0 =? 0) + b2z (row_sum (drop 1 d) =? 0)
   then fill_from1 0 (1 :: drop 1 r2) else r2)
  = mask_row l0 d c.
Proof.
  intros Hd. destruct d as [|x d]; [done|]. unfold mask_row, fill_from1. simpl.
  destruct (c =? 0); simpl; destruct (0 <? _); simpl;
    rewrite ?drop_0; change (list_fmap Z Z ne0 d) with (ne0 <$> d);
    rewrite ?length_fmap, ?Nat.sub_0_r; done.
Qed.

Section MaskFacts.
Variable max_load : Z.

Lemma update_mask_rows dynamic chosen_idx :
  length chosen_idx = length dynamic →
  Forall (λ x, feat1 x ≠ []) dynamic →
  update_mask max_load dynamic chosen_idx =
    let dint := Feat_map (to_units max_load) <$> dynamic in
    if no_demand_left (feat1 <$> dint)
    then Some (fmap (λ d, d * 0) <$> (feat1 <$> dint))
    else loads0 ← col0 (feat0 <$> dint);
         Some (zip_with (λ (ld : Z * list Z) c, mask_row ld.1 ld.2 c)
                        (zip loads0 (feat1 <$> dint)) chosen_idx).
Proof.
  intros Hlen Hne. unfold update_mask. simpl.
  set (dint := Feat_map (to_units max_load) <$> dynamic).
  assert (Hd : Forall (λ r : list Z, r ≠ []) (feat1 <$> dint)).
  { unfold dint. rewrite <-list_fmap_compose. apply Forall_fmap.
    eapply Forall_impl; [exact Hne|]. intros [l [|x d]]; simpl; done. }
  assert (Hlen' : length dint = length dynamic).
  { unfold dint. by rewrite !length_fmap. }
  destruct (no_demand_left _); [done|].
  rewrite guarded_put0; cycle 1.
  { solve_length. }
  { apply Forall_fmap. eapply Forall_impl; [exact Hd|]. by intros [|??]. }
  simpl. rewrite guarded_put0; cycle 1.
  { solve_length. }
  { apply Forall_forall. intros r [b [r' (-> & _ & Hr')]]%elem_of_zip_with.
    apply list_elem_of_fmap in Hr' as [d [-> Hd']].
    rewrite Forall_forall in Hd. specialize (Hd _ Hd').
    destruct b, d; simpl; done. }
  simpl. destruct (col0 (feat0 <$> dint)) as [loads0|] eqn:Hcol; simpl; [|done].
  assert (Hl0 : length loads0 = length dynamic).
  { apply length_mapM in Hcol. rewrite length_fmap in Hcol. lia. }
  rewrite (guarded_rows2 _ _ _ (λ r, 1 :: drop 1 r) (fill_from1 0)); cycle 1.
  { solve_length. }
  { apply Forall_forall. intros r [b [r' (-> & _ & Hr')]]%elem_of_zip_with.
    apply elem_of_zip_with in Hr' as [b' [r'' (-> & _ & Hr'')]].
    apply list_elem_of_fmap in Hr'' as [d [-> Hd']].
    rewrite Forall_forall in Hd. specialize (Hd _ Hd').
    destruct b, b', d; simpl; done. }
  { done. }
  simpl. f_equal. clear Hcol.
  assert (Hc : length chosen_idx = length (feat1 <$> dint)) by (rewrite length_fmap; lia).
  assert (Hl : length loads0 = length (feat1 <$> dint)) by (rewrite length_fmap; lia).
  revert Hd Hc Hl. generalize (feat1 <$> dint). clear.
  intros ds. revert chosen_idx loads0.
  induction ds as [|d ds IH]; intros [|c ch] [|l0 ls] Hd Hc Hl;
    simplify_eq/=; try done.
  apply Forall_cons in Hd as [Hd Hds].
  f_equal; [|by apply IH].
  by apply mask_row_passes.
Qed.
End MaskFacts.

(** ** The mask *)

Lemma row_sum_zeros (l : list Z) : Forall (λ d, d = 0) l → row_sum l = 0.
Proof. induction 1 as [|x l -> _ IH]; simpl; [done|]. by rewrite IH. Qed.

Lemma row_sum_nonneg_zero (l : list Z) :
  Forall (λ d, 0 ≤ d) l → row_sum l = 0 → Forall (λ d, d = 0) l.
Proof.
  induction 1 as [|x l Hx Hl IH]; simpl; [done|]. intros Hs.
  assert (0 ≤ row_sum l).
  { clear -Hl. induction Hl; simpl; [done|]. unfold row_sum in *. lia. }
  unfold row_sum in *. constructor; [lia|]. apply IH. lia.
Qed.

Lemma forallb_Forall {A} (f : A → bool) (l : list A) :
  forallb f l = true ↔ Forall (λ x, f x = true) l.
Proof.
  induction l as [|x l IH]; simpl; [by split|].
  rewrite andb_true_iff, IH, Forall_cons. done.
Qed.

Section MaskTheorems.
Variable max_load : Z.

Lemma no_demand_left_finished (dynamic : list (Feat f32)) :
  no_demand_left (feat1 <$> (Feat_map (to_units max_load) <$> dynamic)) = true ↔ Forall (finished max_load) dynamic.
Proof.
  unfold no_demand_left, finished, customer_units.
  rewrite forallb_Forall, <-!list_fmap_compose, Forall_fmap.
  apply Forall_iff. intros [l d]. simpl. rewrite forallb_Forall.
  apply Forall_iff. intros z. destruct (Z.eqb_spec 0 z); naive_solver.
Qed.

Lemma lookup_dint_feat1 (dynamic : list (Feat f32)) (i : nat) x :
  dynamic !! i = Some x →
  (feat1 <$> (Feat_map (to_units max_load) <$> dynamic)) !! i = Some (to_units max_load <$> feat1 x).
Proof. intros Hx. by rewrite !list_lookup_fmap, Hx. Qed.

(** What [update_mask] returns for a batch that fits its index vector:
    zeros when every instance is finished, and otherwise, for each
    instance, the row [mask_row] of its own load, demands and index. *)
Lemma update_mask_row dynamic chosen_idx (i : nat) x c :
  well_shaped dynamic chosen_idx →
  dynamic !! i = Some x → chosen_idx !! i = Some c →
  ∃ m l0, update_mask max_load dynamic chosen_idx = Some m ∧
    load_units max_load x = Some l0 ∧
    m !! i = Some (if no_demand_left (feat1 <$> (Feat_map (to_units max_load) <$> dynamic))
                   then (λ d, d * 0) <$> (to_units max_load <$> feat1 x)
                   else mask_row l0 (to_units max_load <$> feat1 x) c).
Proof.
  intros [Hlen Hne] Hx Hc.
  rewrite update_mask_rows; [|done|by eapply Forall_impl; [exact Hne|intros ? [??]]].
  simpl. destruct (col0_Some (feat0 <$> (Feat_map (to_units max_load) <$> dynamic))) as (loads0 & Hcol & Hl0 & Hhd).
  { rewrite <-list_fmap_compose. apply Forall_fmap.
    eapply Forall_impl; [exact Hne|]. intros [[|??] ?] [??]; simpl in *; done. }
  assert (Hl : load_units max_load x = loads0 !! i).
  { symmetry. apply Hhd. by rewrite !list_lookup_fmap, Hx. }
  assert (is_Some (loads0 !! i)) as [l0 Hi].
  { apply lookup_lt_is_Some. rewrite Hl0, !length_fmap. by eapply lookup_lt_Some. }
  destruct (no_demand_left _).
  - eexists _, l0. split_and!; [done|congruence|].
    by rewrite list_lookup_fmap, (lookup_dint_feat1 _ _ x).
  - rewrite Hcol. simpl. eexists _, l0. split_and!; [done|congruence|].
    rewrite lookup_zip_with, lookup_zip_with, Hi. simpl.
    by rewrite (lookup_dint_feat1 _ _ x), Hc.
Qed.

Lemma mask_row_not_zero l0 d c :
  d ≠ [] → ¬ Forall (λ b, b = 0) (mask_row l0 d c).
Proof.
  intros Hd. unfold mask_row. destruct (0 <? _) eqn:Hcomb.
  - by intros [? _]%Forall_cons_1.
  - intros [_ Hz]%Forall_cons_1.
    assert (Hs : row_sum (drop 1 d) ≠ 0).
    { intros Hs. rewrite Hs in Hcomb. simpl in Hcomb.
      destruct (l0 =? 0); simpl in Hcomb; lia. }
    apply Hs, row_sum_zeros. rewrite Forall_fmap in Hz.
    eapply Forall_impl; [exact Hz|]. intros z. unfold ne0. simpl.
    destruct (Z.eqb_spec z 0); simpl; [done|lia].
Qed.

Lemma mask_row_forced l0 d c :
  d ≠ [] → l0 = 0 ∨ row_sum (drop 1 d) = 0 →
  mask_row l0 d c = 1 :: replicate (length d - 1)%nat 0.
Proof.
  intros Hd Hor. unfold mask_row.
  destruct Hor as [-> | ->]; simpl; [|by destruct (l0 =? 0)].
  by destruct (row_sum (drop 1 d) =? 0).
Qed.

Lemma mask_row_free l0 d c :
  l0 ≠ 0 → row_sum (drop 1 d) ≠ 0 →
  mask_row l0 d c = b2z (negb (c =? 0)) :: (ne0 <$> drop 1 d).
Proof.
  intros Hl Hs. unfold mask_row.
  destruct (Z.eqb_spec l0 0), (Z.eqb_spec (row_sum (drop 1 d)) 0); done.
Qed.

End MaskTheorems.

(** C1 (as the claim states it) fails: in a batch of two instances where
    only the first one is finished, the row of the first one is
    [1, 0, 0, 0] (the depot is legal), not all-zero. *)
Lemma mask_zero_iff_instance_finished_fails :
  update_mask 20 [served_instance; fresh_instance] [2; 2]
  = Some [[1; 0; 0; 0]; [1; 1; 1; 1]] ∧
  finished 20 served_instance ∧
  ¬ mask_zero_iff_instance_finished 20.
Proof.
  assert (Hm : update_mask 20 [served_instance; fresh_instance] [2; 2]
               = Some [[1; 0; 0; 0]; [1; 1; 1; 1]]) by (vm_compute; reflexivity).
  assert (Hf : finished 20 served_instance).
  { unfold finished.
    replace (customer_units 20 served_instance) with [0; 0; 0] by (vm_compute; reflexivity).
    repeat constructor. }
  split; [exact Hm|]. split; [exact Hf|]. intros H.
  apply (H [served_instance; fresh_instance] [2; 2] [[1; 0; 0; 0]; [1; 1; 1; 1]] 0%nat
           served_instance [1; 0; 0; 0]) in Hf; [|split; [done|repeat constructor; done]|done..].
  by apply Forall_cons_1 in Hf as [? _].
Qed.

Section MaskClaims.
Variable max_load : Z.

(** C1 (amended): the row of an instance is all-zero exactly when the
    customers of every instance of the batch are served; an all-zero row
    therefore still tells that its own instance is finished. *)
Theorem mask_zero_iff_batch_finished dynamic chosen_idx (i : nat) x :
  well_shaped dynamic chosen_idx →
  dynamic !! i = Some x →
  ∃ m r, update_mask max_load dynamic chosen_idx = Some m ∧ m !! i = Some r ∧
    (Forall (λ b, b = 0) r ↔ Forall (finished max_load) dynamic) ∧
    (Forall (λ b, b = 0) r → finished max_load x).
Proof.
  intros Hws Hx.
  assert (is_Some (chosen_idx !! i)) as [c Hc].
  { apply lookup_lt_is_Some. rewrite (proj1 Hws). by eapply lookup_lt_Some. }
  destruct (update_mask_row max_load _ _ _ _ _ Hws Hx Hc) as (m & l0 & Hm & _ & Hr).
  assert (Hd : to_units max_load <$> feat1 x ≠ []).
  { destruct Hws as [_ Hne]. rewrite Forall_forall in Hne.
    destruct (Hne x) as [_ ?]; [by eapply list_elem_of_lookup_2|].
    by destruct (feat1 x). }
  assert (Hiff : Forall (λ b, b = 0)
                   (if no_demand_left (feat1 <$> (Feat_map (to_units max_load) <$> dynamic))
                    then (λ d, d * 0) <$> (to_units max_load <$> feat1 x)
                    else mask_row l0 (to_units max_load <$> feat1 x) c)
                 ↔ Forall (finished max_load) dynamic).
  { rewrite <-no_demand_left_finished. destruct (no_demand_left _).
    - split; [done|]. intros _. apply Forall_fmap, Forall_true. intros z. simpl. lia.
    - split; [|done]. intros []%mask_row_not_zero. done. }
  eexists m, _. split_and!; [done..|].
  intros Hz. apply Hiff in Hz. rewrite Forall_forall in Hz.
  apply Hz. by eapply list_elem_of_lookup_2.
Qed.

(** C3: in a batch that is not finished, an instance whose load is 0, or
    whose customers' demands sum to 0, gets depot = 1 and every
    customer = 0. *)
Theorem forced_return_to_depot dynamic chosen_idx (i : nat) x :
  well_shaped dynamic chosen_idx →
  Exists (λ y, ¬ finished max_load y) dynamic →
  dynamic !! i = Some x →
  load_units max_load x = Some 0 ∨ row_sum (customer_units max_load x) = 0 →
  ∃ m, update_mask max_load dynamic chosen_idx = Some m ∧
    m !! i = Some (1 :: replicate (length (feat1 x) - 1)%nat 0).
Proof.
  intros Hws Hex Hx Hor.
  assert (is_Some (chosen_idx !! i)) as [c Hc].
  { apply lookup_lt_is_Some. rewrite (proj1 Hws). by eapply lookup_lt_Some. }
  destruct (update_mask_row max_load _ _ _ _ _ Hws Hx Hc) as (m & l0 & Hm & Hl & Hr).
  exists m. split; [done|]. rewrite Hr.
  destruct (no_demand_left _) eqn:Hfin.
  { apply no_demand_left_finished in Hfin. apply Exists_exists in Hex as (y & Hy & Hny).
    rewrite Forall_forall in Hfin. by destruct Hny; apply Hfin. }
  assert (Hd : to_units max_load <$> feat1 x ≠ []).
  { destruct Hws as [_ Hne]. rewrite Forall_forall in Hne.
    destruct (Hne x) as [_ ?]; [by eapply list_elem_of_lookup_2|].
    by destruct (feat1 x). }
  rewrite mask_row_forced, length_fmap; [done..|].
  destruct Hor as [Hl0|Hs]; [left; congruence|by right].
Qed.

(** C4: after a visit of the depot, with a positive load and a customer
    still to serve, the depot is illegal.  The remaining demands of the
    customers are those of a state: none is negative. *)
Theorem no_back_to_back_depot dynamic chosen_idx (i : nat) x l :
  well_shaped dynamic chosen_idx →
  dynamic !! i = Some x →
  chosen_idx !! i = Some 0 →
  load_units max_load x = Some l → 0 < l →
  Forall (λ d, 0 ≤ d) (customer_units max_load x) →
  Exists (λ d, d ≠ 0) (customer_units max_load x) →
  ∃ m r, update_mask max_load dynamic chosen_idx = Some m ∧ m !! i = Some r ∧
    head r = Some 0.
Proof.
  intros Hws Hx Hc Hl Hpos Hnn Hex.
  destruct (update_mask_row max_load _ _ _ _ _ Hws Hx Hc) as (m & l0 & Hm & Hl' & Hr).
  assert (l0 = l) as -> by congruence.
  assert (Hnz : ¬ Forall (λ d, d = 0) (customer_units max_load x)).
  { intros Hz. apply Exists_exists in Hex as (d & Hd & Hd0).
    rewrite Forall_forall in Hz. by apply Hd0, Hz. }
  eexists m, _. split_and!; [done..|].
  destruct (no_demand_left _) eqn:Hfin.
  { apply no_demand_left_finished in Hfin. rewrite Forall_forall in Hfin.
    destruct Hnz. apply Hfin. by eapply list_elem_of_lookup_2. }
  rewrite mask_row_free; [done|lia|].
  intros Hs. by apply Hnz, row_sum_nonneg_zero.
Qed.

End MaskClaims.

Section MarkerIndependence.
Variable max_load : Z.

Lemma mask_row_marker l0 x y d c : mask_row l0 (x :: d) c = mask_row l0 (y :: d) c.
Proof. done. Qed.

Lemma same_but_marker_units d1 d2 :
  Forall2 same_but_marker d1 d2 →
  feat0 <$> (Feat_map (to_units max_load) <$> d1)
    = feat0 <$> (Feat_map (to_units max_load) <$> d2) ∧
  Forall2 (λ r1 r2, ∃ a b t, r1 = a :: t ∧ r2 = b :: t)
    (feat1 <$> (Feat_map (to_units max_load) <$> d1))
    (feat1 <$> (Feat_map (to_units max_load) <$> d2)).
Proof.
  induction 1 as [|x y d1 d2 (H0 & H1 & Hx & Hy) _ [IH0 IH1]]; [done|].
  rewrite !fmap_cons. split; [f_equal; [cbn; by rewrite H0|done]|].
  constructor; [|done]. cbn.
  destruct (feat1 x) as [|a t], (feat1 y) as [|b t']; simplify_eq/=.
  by eexists _, _, _.
Qed.

(** C8: two batches that differ only in the depot slot of the demands get
    the same mask for the same last chosen indices. *)
Theorem mask_ignores_depot_marker d1 d2 chosen_idx :
  well_shaped d1 chosen_idx →
  Forall2 same_but_marker d1 d2 →
  ∃ m, update_mask max_load d1 chosen_idx = Some m ∧
       update_mask max_load d2 chosen_idx = Some m.
Proof.
  intros [Hlen Hne] Hsame.
  assert (Hlen2 : length chosen_idx = length d2).
  { rewrite Hlen. by eapply Forall2_length. }
  assert (Hne2 : Forall (λ x, feat1 x ≠ []) d2).
  { apply Forall_forall. intros y Hy.
    apply list_elem_of_lookup in Hy as [i Hy].
    destruct (Forall2_lookup_r _ _ _ _ _ Hsame Hy) as (x & _ & Hxy).
    apply Hxy. }
  rewrite !update_mask_rows; [|done|done|done|by eapply Forall_impl; [exact Hne|intros ? [??]]].
  cbv zeta. destruct (same_but_marker_units _ _ Hsame) as [H0 H1]. rewrite <-H0.
  destruct (col0_Some (feat0 <$> (Feat_map (to_units max_load) <$> d1)))
    as (loads0 & Hcol & Hl0 & _).
  { rewrite <-list_fmap_compose. apply Forall_fmap.
    eapply Forall_impl; [exact Hne|]. intros [[|??] ?] [??]; simpl in *; done. }
  rewrite Hcol. simpl.
  assert (Hl : length loads0 = length (feat1 <$> (Feat_map (to_units max_load) <$> d1))).
  { rewrite Hl0. solve_length. }
  assert (Hc : length chosen_idx = length (feat1 <$> (Feat_map (to_units max_load) <$> d1))).
  { solve_length. }
  revert H1 Hl Hc.
  generalize (feat1 <$> (Feat_map (to_units max_load) <$> d1)).
  generalize (feat1 <$> (Feat_map (to_units max_load) <$> d2)).
  clear. intros D2 D1 H1.
  assert (Hfin : no_demand_left D1 = no_demand_left D2).
  { induction H1 as [|r1 r2 D1 D2 (a & b & t & -> & ->) _ IH]; simpl; [done|].
    by rewrite IH. }
  assert (Hz : fmap (M := list) (λ d, d * 0) <$> D1 = fmap (λ d, d * 0) <$> D2).
  { clear Hfin. induction H1 as [|r1 r2 D1 D2 (a & b & t & -> & ->) _ IH]; [done|].
    rewrite !fmap_cons, IH. do 2 f_equal. lia. }
  rewrite <-Hfin, <-Hz. intros Hl Hc.
  destruct (no_demand_left D1); [by eexists|].
  eexists. split; [done|]. f_equal. clear Hfin Hz.
  revert loads0 chosen_idx Hl Hc.
  induction H1 as [|r1 r2 D1 D2 (a & b & t & -> & ->) _ IH];
    intros [|l0 loads0] [|c ch] Hl Hc; simplify_eq/=; try done.
  f_equal. by apply IH.
Qed.

End MarkerIndependence.

(** ** Row-wise reading of the operations of [update_dynamic] *)

Section GatherScatter.
Context {A : Type}.
Implicit Types (t : list (list A)) (idx : list Z).

Lemma gather_Some t idx (n : nat) :
  length idx = length t →
  Forall (λ r, length r = n) t →
  Forall (λ c, 0 ≤ c < Z.of_nat n) idx →
  ∃ g, gather t idx = Some g ∧ length g = length t ∧
    ∀ (i : nat) r c, t !! i = Some r → idx !! i = Some c →
      is_Some (g !! i) ∧ g !! i = r !! Z.to_nat c.
Proof.
  intros Hlen Ht Hidx. unfold gather. rewrite decide_True by done.
  assert (His : is_Some (mapM (λ ri : list A * Z,
              if ri.2 <? 0 then None else ri.1 !! Z.to_nat ri.2) (zip t idx))).
  { apply mapM_is_Some, Forall_forall. intros [r c] Hin. simpl.
    apply elem_of_zip_with in Hin as (r' & c' & [= -> ->] & Hr & Hc).
    rewrite Forall_forall in Ht. rewrite Forall_forall in Hidx. specialize (Ht _ Hr). specialize (Hidx _ Hc).
    destruct (Z.ltb_spec c' 0); [lia|]. apply lookup_lt_is_Some. lia. }
  destruct His as [g Hg]. exists g. split; [done|].
  pose proof (length_mapM _ _ _ Hg) as Hl. rewrite length_zip_with in Hl.
  split; [lia|]. intros i r c Hr Hc.
  apply mapM_Some_1 in Hg.
  destruct (Forall2_lookup_l _ _ _ i (r, c) Hg) as (y & Hy & Hf).
  { by rewrite lookup_zip_with, Hr, Hc. }
  simpl in Hf. destruct (c <? 0); [done|]. rewrite Hy. split; [by eexists|done].
Qed.

Lemma masked_scatter_Some (self : list A) mask source :
  length mask = length self → (length self ≤ length source)%nat →
  ∃ r, masked_scatter_ self mask source = Some r ∧ length r = length self ∧
    ∀ i : nat, mask !! i = Some false → r !! i = self !! i.
Proof.
  revert mask source. induction self as [|x self IH]; intros [|b mask] source Hlen Hsrc;
    simplify_eq/=.
  { by exists []. }
  destruct b.
  - destruct source as [|s source]; simpl in *; [lia|].
    destruct (IH mask source) as (r & -> & Hr & Hi); [done|lia|].
    exists (s :: r). split_and!; simpl; [done|by rewrite Hr|].
    intros [|i]; simpl; [done|apply Hi].
  - destruct (IH mask source) as (r & -> & Hr & Hi); [done|lia|].
    exists (x :: r). split_and!; simpl; [done|by rewrite Hr|].
    intros [|i]; simpl; [done|apply Hi].
Qed.

Lemma masked_scatter_all (self : list A) mask source :
  length mask = length self → length source = length self →
  Forall (λ b, b = true) mask →
  masked_scatter_ self mask source = Some source.
Proof.
  revert mask source. induction self as [|x self IH];
    intros [|b mask] [|s source] Hlen Hsrc Hall; simplify_eq/=; [done|].
  apply Forall_cons in Hall as [-> Hall]. by rewrite IH.
Qed.

Lemma index_put_nonzero (sel : list bool) (nl : list A) t pre_nl pre_t :
  length pre_nl = length pre_t → length sel = length t → length nl = length t →
  ∃ vals,
    index_select (pre_nl ++ nl) (nonzero_from (length pre_t) sel) = Some vals ∧
    index_put_rows (pre_t ++ t) (nonzero_from (length pre_t) sel) vals
    = Some (pre_t ++ zip_with (λ (bv : bool * A) r, if bv.1 then fill bv.2 r else r)
                             (zip sel nl) t).
Proof.
  revert nl t pre_nl pre_t.
  induction sel as [|b sel IH]; intros [|v nl] [|r t] pre_nl pre_t Hpre Hsel Hnl;
    simplify_eq/=.
  { by exists []. }
  destruct (IH nl t (pre_nl ++ [v]) (pre_t ++ [if b then fill v r else r]))
    as (vals & Hvals & Hput); [by rewrite !length_app, Hpre|done..|].
  rewrite length_app, Nat.add_1_r in Hvals, Hput.
  rewrite <-(assoc_L (++)) in Hvals. rewrite <-!(assoc_L (++)) in Hput.
  simpl in Hvals, Hput.
  destruct b; simpl; [|by exists vals].
  exists (v :: vals). split.
  - replace ((pre_nl ++ v :: nl) !! length pre_t) with (Some v)
      by (symmetry; rewrite <-Hpre; by apply list_lookup_middle).
    simpl. by rewrite Hvals.
  - rewrite list_lookup_middle by done. simpl.
    rewrite insert_app_r_alt, Nat.sub_diag by done. done.
Qed.

Lemma scatter_Some t idx (src : list A) (n : nat) :
  length idx = length t → length src = length t →
  Forall (λ r, length r = n) t →
  Forall (λ c, 0 ≤ c < Z.of_nat n) idx →
  scatter_ t idx src
  = Some (zip_with (λ (ri : list A * Z) s, <[Z.to_nat ri.2 := s]> ri.1) (zip t idx) src).
Proof.
  intros Hidx Hsrc Ht Hc. unfold scatter_. rewrite decide_True by done.
  apply mapM_Some_2. revert idx src Hidx Hsrc Hc.
  induction Ht as [|r t Hr _ IH]; intros [|c idx] [|s src] Hidx Hsrc Hc;
    simplify_eq/=; constructor.
  - apply Forall_cons in Hc as [Hc _].
    destruct (Z.leb_spec 0 c), (Z.ltb_spec c (Z.of_nat (length r))); simpl; [done|lia..].
  - apply Forall_cons in Hc as [_ Hc]. by apply IH.
Qed.

Lemma set_col0_Some t (vals : list A) :
  length vals = length t → Forall (λ r, r ≠ []) t →
  set_col0 t vals = Some (zip_with (λ r v, <[0%nat := v]> r) t vals).
Proof.
  intros Hlen Ht. unfold set_col0. rewrite decide_True by done.
  apply mapM_Some_2. revert vals Hlen.
  induction Ht as [|r t Hr _ IH]; intros [|v vals] Hlen; simplify_eq/=; constructor.
  - by destruct r.
  - by apply IH.
Qed.

End GatherScatter.

(** ** [update_dynamic], instance by instance *)

Lemma any_false_lookup (m : list bool) (i : nat) b :
  any m = false → m !! i = Some b → b = false.
Proof.
  revert i. induction m as [|b' m IH]; intros [|i] Hany Hi; simplify_eq/=.
  - by apply orb_false_iff in Hany as [? _].
  - apply orb_false_iff in Hany as [_ ?]. by eapply IH.
Qed.

Lemma squeezed_fill_mask {A} (sel : list bool) (v : A) t :
  length sel ≠ 1%nat →
  squeezed_fill sel v t = masked_rows sel (λ r, Some (fill v r)) t.
Proof. by destruct sel as [|b [|??]]. Qed.

Lemma squeezed_put0_mask {A} (sel : list bool) (v : A) t :
  length sel ≠ 1%nat →
  squeezed_put0 sel v t = masked_rows sel (put0 v) t.
Proof. by destruct sel as [|b [|??]]. Qed.

Section DynamicFacts.
Variable max_load : Z.
Variable n : nat.
Hypothesis n_pos : (0 < n)%nat.

Lemma visit_branch dynamic chosen_idx load demand :
  has_shape n dynamic → length chosen_idx = length dynamic → in_range n chosen_idx →
  length load = length dynamic → length demand = length dynamic →
  (∀ (i : nat) x c, dynamic !! i = Some x → chosen_idx !! i = Some c →
     load !! i = feat0 x !! Z.to_nat c ∧ is_Some (load !! i) ∧
     demand !! i = feat1 x !! Z.to_nat c ∧ is_Some (demand !! i)) →
  let visit := (λ c, negb (c =? 0)) <$> chosen_idx in
  let all_loads := feat0 <$> dynamic in
  let all_demands := feat1 <$> dynamic in
  let load_int := int_float max_load <$> load in
  let demand_int := int_float max_load <$> demand in
  let new_load :=
    zip_with (λ l d, F32.div (F32.clamp_min0 (F32.sub l d)) (F32.of_Z max_load))
             load_int demand_int in
  let new_demand :=
    zip_with (λ d l, F32.div (F32.clamp_min0 (F32.sub d l)) (F32.of_Z max_load))
             demand_int load_int in
  ∃ L D,
    (new_demand ← masked_scatter_ demand visit new_demand;
     let visit_idx := nonzero visit in
     vals ← index_select new_load visit_idx;
     all_loads ← index_put_rows all_loads visit_idx vals;
     all_demands ← scatter_ all_demands chosen_idx new_demand;
     let visit := (λ b : bool, if b then F32.one else F32.zero) <$> visit in
     demands0 ← col0 all_demands;
     let keep := zip_with (λ d v, F32.mul d (F32.sub F32.one v)) demands0 visit in
     let mark := zip_with (λ l v, F32.mul (F32.sub l F32.one) v) new_load visit in
     all_demands ← set_col0 all_demands (zip_with F32.add keep mark);
     Some (all_loads, all_demands)) = Some (L, D) ∧
    length L = length dynamic ∧ length D = length dynamic ∧
    ∀ (i : nat) x c, dynamic !! i = Some x → chosen_idx !! i = Some c →
      ∃ l d dr, feat0 x !! Z.to_nat c = Some l ∧ feat1 x !! Z.to_nat c = Some d ∧
        L !! i = Some (if c =? 0 then feat0 x else fill (new_load_of max_load l d) (feat0 x)) ∧
        D !! i = Some dr ∧ length dr = n ∧
        (∀ j : nat, j ≠ 0%nat → j ≠ Z.to_nat c → dr !! j = feat1 x !! j) ∧
        (c ≠ 0 → ∃ d0, feat1 x !! 0%nat = Some d0 ∧
                       dr !! 0%nat = Some (marker_of d0 (new_load_of max_load l d))) ∧
        (Forall (λ c, c ≠ 0) chosen_idx →
           dr !! Z.to_nat c = Some (new_demand_of max_load l d)).
Proof.
  intros Hshape Hlen Hrange Hll Hdl Hgather visit all_loads all_demands
    load_int demand_int new_load new_demand.
  assert (Hvl : length visit = length dynamic) by (unfold visit; solve_length).
  assert (Hnl : length new_load = length dynamic)
    by (unfold new_load, load_int, demand_int; solve_length).
  assert (Hndl : length new_demand = length dynamic)
    by (unfold new_demand, load_int, demand_int; solve_length).
  destruct (masked_scatter_Some demand visit new_demand) as (nd & Hms & Hnd & _);
    [lia..|].
  assert (Hall : Forall (λ c, c ≠ 0) chosen_idx → nd = new_demand).
  { intros Hnz. rewrite masked_scatter_all in Hms; [congruence|lia..|].
    unfold visit. apply Forall_fmap. eapply Forall_impl; [exact Hnz|].
    intros c Hc. simpl. by destruct (Z.eqb_spec c 0). }
  rewrite Hms. simpl.
  destruct (index_put_nonzero visit new_load all_loads [] []) as (vals & Hvals & Hput).
  { done. } { unfold all_loads. solve_length. } { unfold all_loads. solve_length. }
  simpl in Hvals, Hput. unfold nonzero. rewrite Hvals. simpl. rewrite Hput. simpl.
  rewrite (scatter_Some _ _ _ n); cycle 1.
  { unfold all_demands. solve_length. } { unfold all_demands. solve_length. }
  { unfold all_demands. apply Forall_fmap. eapply Forall_impl; [exact Hshape|].
    by intros ? [??]. }
  { done. }
  simpl.
  set (D1 := zip_with (λ (ri : list f32 * Z) s, <[Z.to_nat ri.2 := s]> ri.1)
               (zip all_demands chosen_idx) nd).
  assert (HD1 : Forall (λ r, length r = n) D1).
  { apply Forall_forall. intros r (ri & s & -> & Hri & _)%elem_of_zip_with.
    apply elem_of_zip_with in Hri as (r' & c & -> & Hr' & _).
    rewrite length_insert. simpl. unfold all_demands in Hr'.
    apply list_elem_of_fmap in Hr' as (x & -> & Hx).
    unfold has_shape in Hshape. rewrite Forall_forall in Hshape. by apply Hshape. }
  assert (HD1l : length D1 = length dynamic).
  { unfold D1, all_demands. solve_length. }
  destruct (col0_Some D1) as (demands0 & -> & Hd0l & Hd0).
  { eapply Forall_impl; [exact HD1|]. intros [|??] ?; simpl in *; [lia|done]. }
  simpl. rewrite set_col0_Some; cycle 1.
  { solve_length. }
  { eapply Forall_impl; [exact HD1|]. intros [|??] ?; simpl in *; [lia|done]. }
  eexists _, _. split; [done|]. split; [unfold all_loads; solve_length|].
  split; [solve_length|].
  intros i x c Hx Hc. destruct (Hgather i x c Hx Hc) as (Hl & [l Hli] & Hd & [d Hdi]).
  assert (is_Some (nd !! i)) as [ndi Hndi].
  { apply lookup_lt_is_Some. rewrite Hnd, Hdl. by eapply lookup_lt_Some. }
  assert (Hnli : new_load !! i = Some (new_load_of max_load l d)).
  { unfold new_load, load_int, demand_int.
    by rewrite lookup_zip_with, !list_lookup_fmap, Hli, Hdi. }
  assert (HD1i : D1 !! i = Some (<[Z.to_nat c := ndi]> (feat1 x))).
  { unfold D1, all_demands.
    by rewrite !lookup_zip_with, list_lookup_fmap, Hx, Hc, Hndi. }
  assert (Hxs : length (feat1 x) = n).
  { unfold has_shape in Hshape. rewrite Forall_forall in Hshape.
    apply Hshape. by eapply list_elem_of_lookup_2. }
  assert (is_Some (feat1 x !! 0%nat)) as [d0 Hd0x].
  { apply lookup_lt_is_Some. lia. }
  assert (Hcr : 0 ≤ c < Z.of_nat n).
  { unfold in_range in Hrange. rewrite Forall_forall in Hrange.
    apply Hrange. by eapply list_elem_of_lookup_2. }
  assert (is_Some (head (<[Z.to_nat c:=ndi]> (feat1 x)))) as [h Hh].
  { rewrite head_lookup. apply lookup_lt_is_Some. rewrite length_insert. lia. }
  set (v := if negb (c =? 0) then F32.one else F32.zero).
  exists l, d,
    (<[0%nat := F32.add (F32.mul h (F32.sub F32.one v))
                        (F32.mul (F32.sub (new_load_of max_load l d) F32.one) v)]>
       (<[Z.to_nat c := ndi]> (feat1 x))).
  split_and!.
  - by rewrite <-Hl.
  - by rewrite <-Hd.
  - unfold all_loads, visit.
    rewrite !lookup_zip_with, !list_lookup_fmap, Hx, Hc, Hnli. simpl.
    by destruct (c =? 0).
  - rewrite lookup_zip_with, HD1i. simpl.
    rewrite !lookup_zip_with, (Hd0 _ _ HD1i), Hh, Hnli. simpl.
    unfold visit. by rewrite !list_lookup_fmap, Hc.
  - by rewrite !length_insert.
  - intros j Hj0 Hjc. rewrite list_lookup_insert_ne by done.
    by rewrite list_lookup_insert_ne.
  - intros Hc0. exists d0. split; [done|].
    rewrite list_lookup_insert_eq by (rewrite length_insert; lia).
    rewrite head_lookup, list_lookup_insert_ne in Hh by lia.
    assert (h = d0) as -> by congruence.
    unfold v. by destruct (Z.eqb_spec c 0).
  - intros Hnz. assert (c ≠ 0).
    { rewrite Forall_forall in Hnz. apply Hnz. by eapply list_elem_of_lookup_2. }
    rewrite list_lookup_insert_ne by lia.
    rewrite list_lookup_insert_eq by lia.
    rewrite (Hall Hnz) in Hndi. rewrite <-Hndi.
    unfold new_demand, load_int, demand_int.
    by rewrite lookup_zip_with, !list_lookup_fmap, Hli, Hdi.
Qed.

(** [update_dynamic] returns a state for every batch of shape
    (batch, 2, n) and every index vector within range, and that state is,
    instance by instance, the following. *)
Lemma update_dynamic_spec dynamic chosen_idx :
  has_shape n dynamic → length chosen_idx = length dynamic → in_range n chosen_idx →
  ∃ dyn', update_dynamic max_load dynamic chosen_idx = Some dyn' ∧
    length dyn' = length dynamic ∧
    ∀ (i : nat) x c, dynamic !! i = Some x → chosen_idx !! i = Some c →
      ∃ y, dyn' !! i = Some y ∧ length (feat1 y) = n ∧
        (c = 0 → feat0 y = replicate n F32.one ∧
                 feat1 y = if decide (length dynamic = 1%nat)
                           then replicate n F32.zero
                           else <[0%nat := F32.zero]> (feat1 x)) ∧
        (c ≠ 0 → ∃ l d d0,
            feat0 x !! Z.to_nat c = Some l ∧ feat1 x !! Z.to_nat c = Some d ∧
            feat1 x !! 0%nat = Some d0 ∧
            feat0 y = replicate n (new_load_of max_load l d) ∧
            feat1 y !! 0%nat = Some (marker_of d0 (new_load_of max_load l d)) ∧
            (∀ j : nat, j ≠ 0%nat → j ≠ Z.to_nat c → feat1 y !! j = feat1 x !! j) ∧
            (Forall (λ c, c ≠ 0) chosen_idx →
               feat1 y !! Z.to_nat c = Some (new_demand_of max_load l d))).
Proof.
  intros Hshape Hlen Hrange. unfold update_dynamic.
  assert (Hs0 : Forall (λ r : list f32, length r = n) (feat0 <$> dynamic)).
  { apply Forall_fmap. eapply Forall_impl; [exact Hshape|]. by intros ? [??]. }
  assert (Hs1 : Forall (λ r : list f32, length r = n) (feat1 <$> dynamic)).
  { apply Forall_fmap. eapply Forall_impl; [exact Hshape|]. by intros ? [??]. }
  destruct (gather_Some (feat0 <$> dynamic) chosen_idx n) as (load & -> & Hll & Hload);
    [solve_length|done..|].
  destruct (gather_Some (feat1 <$> dynamic) chosen_idx n) as (demand & -> & Hdl & Hdemand);
    [solve_length|done..|].
  rewrite length_fmap in Hll, Hdl. simpl.
  assert (Hsh : ∀ (i : nat) x, dynamic !! i = Some x →
                  length (feat0 x) = n ∧ length (feat1 x) = n).
  { intros i x Hx. unfold has_shape in Hshape. rewrite Forall_forall in Hshape.
    apply Hshape. by eapply list_elem_of_lookup_2. }
  assert (Hcr : ∀ (i : nat) c, chosen_idx !! i = Some c → 0 ≤ c < Z.of_nat n).
  { intros i c Hc. unfold in_range in Hrange. rewrite Forall_forall in Hrange.
    apply Hrange. by eapply list_elem_of_lookup_2. }
  (* the branch of the visits *)
  match goal with |- context [(if any ?v then ?a else ?b) ≫= ?k] =>
    assert (Hb1 : ∃ L D, (if any v then a else b) = Some (L, D) ∧
      length L = length dynamic ∧ length D = length dynamic ∧
      ∀ (i : nat) x c, dynamic !! i = Some x → chosen_idx !! i = Some c →
        ∃ l d dr, feat0 x !! Z.to_nat c = Some l ∧ feat1 x !! Z.to_nat c = Some d ∧
          L !! i = Some (if c =? 0 then feat0 x
                         else fill (new_load_of max_load l d) (feat0 x)) ∧
          D !! i = Some dr ∧ length dr = n ∧
          (∀ j : nat, j ≠ 0%nat → j ≠ Z.to_nat c → dr !! j = feat1 x !! j) ∧
          (c ≠ 0 → ∃ d0, feat1 x !! 0%nat = Some d0 ∧
                         dr !! 0%nat = Some (marker_of d0 (new_load_of max_load l d))) ∧
          (Forall (λ c, c ≠ 0) chosen_idx →
             dr !! Z.to_nat c = Some (new_demand_of max_load l d)))
  end.
  { destruct (any _) eqn:Hany.
    - apply visit_branch; [done..|]. intros i x c Hx Hc.
      destruct (Hload i (feat0 x) c) as [? ?]; [by rewrite list_lookup_fmap, Hx|done|].
      destruct (Hdemand i (feat1 x) c) as [? ?]; [by rewrite list_lookup_fmap, Hx|done|].
      done.
    - eexists _, _. split; [done|]. split; [solve_length|]. split; [solve_length|].
      intros i x c Hx Hc.
      assert (c = 0) as ->.
      { apply Z.eqb_eq, negb_false_iff. eapply any_false_lookup; [exact Hany|].
        by rewrite list_lookup_fmap, Hc. }
      destruct (Hsh i x Hx) as [H0 H1].
      assert (is_Some (feat0 x !! 0%nat)) as [l Hl] by (apply lookup_lt_is_Some; lia).
      assert (is_Some (feat1 x !! 0%nat)) as [d Hd] by (apply lookup_lt_is_Some; lia).
      exists l, d, (feat1 x). simpl. rewrite !list_lookup_fmap, Hx. simpl.
      split_and!; try done.
      intros Hnz. rewrite Forall_forall in Hnz.
      by destruct (Hnz 0); [eapply list_elem_of_lookup_2|]. }
  destruct Hb1 as (L & D & -> & HL & HD & Hrows). simpl.
  (* the branch of the returns to the depot *)
  set (depot := (λ c, c =? 0) <$> chosen_idx).
  assert (Hdep : length depot = length dynamic) by (unfold depot; solve_length).
  assert (HDne : Forall (λ r, put0 F32.zero r = Some (<[0%nat := F32.zero]> r)) D).
  { apply Forall_forall. intros r Hr. apply list_elem_of_lookup in Hr as [i Hr].
    assert (is_Some (dynamic !! i)) as [x Hx].
    { apply lookup_lt_is_Some. rewrite <-HD. by eapply lookup_lt_Some. }
    assert (is_Some (chosen_idx !! i)) as [c Hc].
    { apply lookup_lt_is_Some. rewrite Hlen. by eapply lookup_lt_Some. }
    destruct (Hrows i x c Hx Hc) as (l & d & dr & _ & _ & _ & Hdr & Hlen' & _).
    assert (r = dr) as -> by congruence. destruct dr; simpl in *; [lia|done]. }
  assert (Hb2 :
    (if any depot
     then all_loads ← squeezed_fill depot F32.one L;
          all_demands ← squeezed_put0 depot F32.zero D;
          Some (all_loads, all_demands)
     else Some (L, D))
    = Some (zip_with (λ (b : bool) r, if b then fill F32.one r else r) depot L,
            zip_with (λ (b : bool) r,
                        if b then (if decide (length dynamic = 1%nat)
                                   then fill F32.zero r
                                   else <[0%nat := F32.zero]> r)
                        else r) depot D)).
  { destruct (any depot) eqn:Hany.
    - destruct (decide (length dynamic = 1%nat)) as [Hone|Hone].
      + (* a batch of one: the squeezed mask is 0-dim *)
        destruct depot as [|b [|??]]; simpl in Hdep; [lia| |lia].
        destruct L as [|l0 [|??]]; simpl in HL; [lia| |lia].
        destruct D as [|d0 [|??]]; simpl in HD; [lia| |lia].
        simpl in Hany. rewrite orb_false_r in Hany. unfold id in Hany. subst b.
        done.
      + rewrite (squeezed_fill_mask depot F32.one L) by lia.
        rewrite (squeezed_put0_mask depot F32.zero D) by lia.
        rewrite (masked_rows_Some depot (λ r, Some (fill F32.one r)) (fill F32.one) L);
          [|lia|by apply Forall_true].
        simpl.
        rewrite (masked_rows_Some depot (put0 F32.zero) (λ r, <[0%nat := F32.zero]> r) D);
          [done|lia|done].
    - rewrite !zip_with_unselected; [done|done|lia|done|lia]. }
  rewrite Hb2. simpl. eexists. split; [done|]. split; [solve_length|].
  intros i x c Hx Hc.
  destruct (Hrows i x c Hx Hc)
    as (l & d & dr & Hl & Hd & HLi & HDi & Hdrl & Hframe & Hmark & Hnew).
  destruct (Hsh i x Hx) as [H0 H1].
  exists (mkFeat (if c =? 0 then fill F32.one (feat0 x)
                  else fill (new_load_of max_load l d) (feat0 x))
                 (if c =? 0 then (if decide (length dynamic = 1%nat)
                                  then fill F32.zero dr
                                  else <[0%nat := F32.zero]> dr)
                  else dr)).
  split_and!.
  - rewrite !lookup_zip_with. unfold depot. rewrite !list_lookup_fmap, Hc, HLi, HDi.
    simpl. by destruct (c =? 0).
  - simpl. destruct (c =? 0); [|done].
    destruct (decide _); unfold fill; by rewrite ?length_replicate, ?length_insert.
  - intros ->. simpl. unfold fill. rewrite H0. split; [done|].
    destruct (decide _); [by rewrite Hdrl|].
    apply list_eq. intros [|j]; [|by rewrite !list_lookup_insert_ne, Hframe by done].
    by rewrite !list_lookup_insert_eq by lia.
  - intros Hc0. destruct (Hmark Hc0) as (d0 & Hd0 & Hm).
    destruct (Z.eqb_spec c 0); [done|]. simpl.
    exists l, d, d0. unfold fill. rewrite H0. split_and!; done.
Qed.

End DynamicFacts.

(** ** Facts on binary32 arithmetic *)

Section F32Facts.

Lemma binary_round_aux_sign s mx ex lx :
  match binary_round_aux F32.prec F32.emax s mx ex lx with
  | S754_zero s' | S754_infinity s' | S754_finite s' _ _ => s' = s
  | S754_nan => True
  end.
Proof.
  unfold binary_round_aux.
  destruct (shr_fexp _ _ mx ex lx) as [mrs' e'].
  destruct (shr_fexp _ _ _ e' loc_Exact) as [mrs'' e''].
  destruct (shr_m mrs''); [done| |done]. by destruct (_ <=? _).
Qed.

Lemma binary_round_aux_opp s mx ex lx :
  binary_round_aux F32.prec F32.emax (negb s) mx ex lx
  = SFopp (binary_round_aux F32.prec F32.emax s mx ex lx).
Proof.
  unfold binary_round_aux.
  destruct (shr_fexp _ _ mx ex lx) as [mrs' e'].
  destruct (shr_fexp _ _ _ e' loc_Exact) as [mrs'' e''].
  destruct (shr_m mrs''); [done| |done]. by destruct (_ <=? _).
Qed.

Lemma binary_round_opp s m e :
  binary_round F32.prec F32.emax (negb s) m e
  = SFopp (binary_round F32.prec F32.emax s m e).
Proof.
  unfold binary_round. destruct (shl_align _ _ _) as [mz ez].
  apply binary_round_aux_opp.
Qed.

Lemma SFopp_involutive x : SFopp (SFopp x) = x.
Proof. destruct x; simpl; by rewrite ?negb_involutive. Qed.

Lemma binary_normalize_opp m e :
  m ≠ 0 →
  binary_normalize F32.prec F32.emax (- m) e false
  = SFopp (binary_normalize F32.prec F32.emax m e false).
Proof.
  destruct m as [|p|p]; [done| |]; intros _; simpl.
  - apply (binary_round_opp false).
  - by rewrite (binary_round_opp false), SFopp_involutive.
Qed.

Lemma mul_opp_opp x : F32.mul (SFopp x) (SFopp x) = F32.mul x x.
Proof.
  unfold F32.mul. destruct x as [s|s| |s m e]; simpl; [by destruct s..|done|].
  by destruct s.
Qed.

(** Swapping the operands of a subtraction negates the result, or leaves
    it as it is (the two zeros of equal sign, and not-a-number). *)
Lemma sub_swap a b :
  F32.sub b a = SFopp (F32.sub a b) ∨ F32.sub b a = F32.sub a b.
Proof.
  unfold F32.sub.
  destruct a as [sa|sa| |sa ma ea], b as [sb|sb| |sb mb eb]; simpl;
    try (by left); try (by right);
    try (destruct sa, sb; simpl; by (left + right)).
  rewrite (Z.min_comm eb ea).
  set (za := cond_Zopp sa _). set (zb := cond_Zopp sb _).
  destruct (decide (za - zb = 0)) as [Hz|Hz].
  - right. replace (zb - za) with 0 by lia. by rewrite Hz.
  - left. replace (zb - za) with (- (za - zb)) by lia.
    by apply binary_normalize_opp.
Qed.

Lemma sq_sub_sym a b :
  F32.mul (F32.sub a b) (F32.sub a b) = F32.mul (F32.sub b a) (F32.sub b a).
Proof.
  destruct (sub_swap a b) as [-> | ->]; [|done]. by rewrite mul_opp_opp.
Qed.

Lemma sign_clear_sq x : sign_clear (F32.mul x x).
Proof.
  unfold F32.mul. destruct x as [s|s| |s m e]; simpl; [by destruct s..|done|].
  pose proof (binary_round_aux_sign (xorb s s) (Z.pos (m * m)) (e + e) loc_Exact) as H.
  destruct (binary_round_aux _ _ _ _ _ _); simpl; [by destruct s..|done|by destruct s].
Qed.

Lemma sign_clear_add x y : sign_clear x → sign_clear y → sign_clear (F32.add x y).
Proof.
  unfold F32.add.
  destruct x as [sx|sx| |sx mx ex], y as [sy|sy| |sy my ey]; simpl;
    intros Hx Hy; subst; try done.
  pose proof (binary_round_aux_sign false) as H. unfold binary_normalize, binary_round.
  simpl. destruct (shl_align _ _ _) as [mz ez]. apply (H (Z.pos mz) ez loc_Exact).
Qed.

Lemma sign_clear_sqrt x : sign_clear x → sign_clear (F32.sqrt x).
Proof.
  unfold F32.sqrt. destruct x as [s|s| |s m e]; simpl; intros Hs; subst; try done.
  destruct (SFsqrt_core_binary _ _ _ _) as [[mz ez] lz].
  apply (binary_round_aux_sign false).
Qed.

Lemma add_zero_l x : sign_clear x → F32.add F32.zero x = x.
Proof. destruct x as [s|s| |s m e]; simpl; intros Hs; subst; done. Qed.

Lemma add_zero_r x : sign_clear x → F32.add x F32.zero = x.
Proof. destruct x as [s|s| |s m e]; simpl; intros Hs; subst; done. Qed.

End F32Facts.

(** ** Sums in any order *)

Lemma sums_sign_clear l s : sums_to l s → Forall sign_clear l → sign_clear s.
Proof.
  induction 1 as [|a|l1 l2 s1 s2 _ IH1 _ IH2|l l' s Hp _ IH]; intros Hl.
  - done.
  - by apply Forall_cons in Hl as [? _].
  - apply Forall_app in Hl as [? ?]. apply sign_clear_add; auto.
  - apply IH. by rewrite Hp.
Qed.

Lemma sums_zeros l s : sums_to l s → Forall (λ x, x = F32.zero) l → s = F32.zero.
Proof.
  induction 1 as [|a|l1 l2 s1 s2 _ IH1 _ IH2|l l' s Hp _ IH]; intros Hl.
  - done.
  - by apply Forall_cons in Hl as [? _].
  - apply Forall_app in Hl as [? ?]. by rewrite IH1, IH2.
  - apply IH. by rewrite Hp.
Qed.

(** The sum of a value taken twice has one result, whatever the order. *)
Lemma sums_twice d l s :
  sign_clear d → sums_to l s →
  (l = [] → s = F32.zero) ∧ (l = [d] → s = d) ∧ (l = [d; d] → s = F32.add d d).
Proof.
  intros Hd. induction 1 as [|a|l1 l2 s1 s2 _ IH1 _ IH2|l l' s Hp _ IH].
  - done.
  - split_and!; [done| |done]. by intros [= ->].
  - destruct IH1 as (IH10 & IH11 & IH12), IH2 as (IH20 & IH21 & IH22). split_and!.
    + intros [-> ->]%app_eq_nil. by rewrite IH10, IH20.
    + intros Hl. destruct l1 as [|a l1].
      * simpl in Hl. rewrite IH10, (IH21 Hl) by done. by apply add_zero_l.
      * injection Hl as -> Hl. apply app_eq_nil in Hl as [-> ->].
        rewrite IH11, IH20 by done. by apply add_zero_r.
    + intros Hl. destruct l1 as [|a [|b l1]].
      * simpl in Hl. rewrite IH10, (IH22 Hl) by done.
        apply add_zero_l. by apply sign_clear_add.
      * injection Hl as -> ->. by rewrite IH11, IH21.
      * injection Hl as -> -> Hl. apply app_eq_nil in Hl as [-> ->].
        rewrite IH12, IH20 by done. apply add_zero_r. by apply sign_clear_add.
  - destruct IH as (IH0 & IH1 & IH2). split_and!.
    + intros ->. apply IH0. by apply Permutation_nil_r.
    + intros ->. apply IH1. by apply Permutation_singleton_r.
    + intros ->. apply IH2.
      assert (Hlen : length l = 2%nat) by (by rewrite Hp).
      assert (Hall : Forall (λ x, x = d) l).
      { rewrite Hp. by repeat constructor. }
      destruct l as [|a [|b [|]]]; simpl in Hlen; try lia.
      apply Forall_cons in Hall as [-> Hall]. by apply Forall_cons in Hall as [-> _].
Qed.

Lemma sum_left_to_right_summation : summation sum_left_to_right.
Proof.
  intros l. unfold sum_left_to_right.
  assert (H : ∀ l0 a, sums_to l0 a → sums_to (l0 ++ l) (foldl F32.add a l)).
  { induction l as [|x l IH]; intros l0 a Ha; simpl.
    - by rewrite app_nil_r.
    - rewrite (cons_middle x l0 l), (assoc_L (++)). apply IH.
      apply sums_add; [done|constructor]. }
  apply (H [] F32.zero). constructor.
Qed.

(** ** Distances *)

Section DistanceFacts.
Variable tsum : list f32 → f32.
Hypothesis tsum_sums : summation tsum.

Lemma sign_clear_tsum l : Forall sign_clear l → sign_clear (tsum l).
Proof. apply sums_sign_clear, tsum_sums. Qed.

Lemma tsum_zeros k : tsum (replicate k F32.zero) = F32.zero.
Proof.
  apply (sums_zeros (replicate k F32.zero)); [apply tsum_sums|].
  apply Forall_forall. by intros x [-> _]%elem_of_replicate.
Qed.

Lemma tsum_twice d : sign_clear d → tsum [d; d] = F32.add d d.
Proof. intros Hd. by apply (sums_twice d [d; d] _ Hd (tsum_sums _)). Qed.

Lemma sign_clear_euclid p q : sign_clear (euclid tsum p q).
Proof.
  apply sign_clear_sqrt, sign_clear_tsum, Forall_fmap, Forall_true.
  intros x. apply sign_clear_sq.
Qed.

Lemma sign_clear_legs path : Forall sign_clear (legs tsum path).
Proof.
  induction path as [|p [|q rest] IH]; [constructor..|].
  change (legs tsum (p :: q :: rest)) with (euclid tsum p q :: legs tsum (q :: rest)).
  constructor; [apply sign_clear_euclid|exact IH].
Qed.

End DistanceFacts.

Lemma euclid_sym tsum p q : euclid tsum p q = euclid tsum q p.
Proof.
  unfold euclid. do 2 f_equal. revert q.
  induction p as [|a p IH]; intros [|b q]; simpl; [done..|].
  f_equal; [apply sq_sub_sym|apply IH].
Qed.

(** ** The reward *)

Lemma legs_consecutive tsum (y : list (list f32)) :
  (λ d, F32.sqrt (tsum ((λ x, F32.mul x x) <$> d)))
    <$> zip_with (zip_with F32.sub) (removelast y) (drop 1 y)
  = legs tsum y.
Proof.
  induction y as [|p [|q rest] IH]; [done..|].
  change (removelast (p :: q :: rest)) with (p :: removelast (q :: rest)).
  change (drop 1 (p :: q :: rest)) with (q :: drop 1 (q :: rest)).
  change (legs tsum (p :: q :: rest)) with (euclid tsum p q :: legs tsum (q :: rest)).
  rewrite <-IH. done.
Qed.

(** The loop of [reward] with the length of each path written with
    [path_length]. *)
Lemma reward_loop tsum (static : list (list (list f32)))
    (tour_indices : list (list Z)) :
  mapM (λ i : nat,
          inst ← static !! i;
          idx ← tour_indices !! i;
          tour ← mapM (point_at inst) idx;
          start ← point_at inst 0;
          let y := [start] ++ tour ++ [start] in
          let diff := zip_with (zip_with F32.sub) (removelast y) (drop 1 y) in
          let dist := (λ d, F32.sqrt (tsum ((λ x, F32.mul x x) <$> d))) <$> diff in
          Some (tsum dist))
       (seq 0 (length static))
  = mapM (λ i : nat,
            inst ← static !! i;
            idx ← tour_indices !! i;
            tour ← mapM (point_at inst) idx;
            depot ← point_at inst 0;
            Some (path_length tsum ([depot] ++ tour ++ [depot])))
         (seq 0 (length static)).
Proof.
  apply mapM_ext. intros i.
  destruct (static !! i) as [inst|]; simpl; [|done].
  destruct (tour_indices !! i) as [idx|]; simpl; [|done].
  destruct (mapM (point_at inst) idx) as [tour|]; simpl; [|done].
  destruct (point_at inst 0) as [depot|]; simpl; [|done].
  unfold path_length. by rewrite <-legs_consecutive.
Qed.

(** [torch.cat] raises for the empty batch only. *)
Lemma reward_paths tsum static tour_indices :
  reward tsum static tour_indices
  = if decide (static = []) then None
    else mapM (λ i : nat,
                 inst ← static !! i;
                 idx ← tour_indices !! i;
                 tour ← mapM (point_at inst) idx;
                 depot ← point_at inst 0;
                 Some (path_length tsum ([depot] ++ tour ++ [depot])))
              (seq 0 (length static)).
Proof.
  unfold reward. rewrite reward_loop.
  destruct (mapM _ (seq 0 (length static))) as [tour_len|] eqn:Hloop; simpl.
  - apply length_mapM in Hloop. rewrite length_seq in Hloop.
    destruct static, tour_len; simpl in Hloop; try lia; done.
  - by destruct (decide (static = [])).
Qed.

(** C6: [reward] is, for each instance, the length of the path that goes
    from the depot through the points of the tour and back to the depot,
    the sums being float sums in the order torch takes; it returns a
    value for every batch that is not empty whenever the indices name
    points of the instance; for a tour of one customer at distance [d] of
    the depot the value is [d + d]. *)
Theorem reward_is_path_length tsum static tour_indices :
  summation tsum →
  reward tsum static tour_indices
  = (if decide (static = []) then None
     else mapM (λ i : nat,
                  inst ← static !! i;
                  idx ← tour_indices !! i;
                  tour ← mapM (point_at inst) idx;
                  depot ← point_at inst 0;
                  Some (path_length tsum ([depot] ++ tour ++ [depot])))
               (seq 0 (length static)))
  ∧ (static ≠ [] →
     Forall2 (λ inst idx, Forall (λ j, is_Some (point_at inst j)) (0 :: idx))
       static tour_indices →
     is_Some (reward tsum static tour_indices))
  ∧ (∀ r (i : nat) inst j depot p,
       reward tsum static tour_indices = Some r →
       static !! i = Some inst → tour_indices !! i = Some [j] →
       point_at inst 0 = Some depot → point_at inst j = Some p →
       r !! i = Some (F32.add (euclid tsum depot p) (euclid tsum depot p))).
Proof.
  intros Hsum.
  pose proof (reward_paths tsum static tour_indices) as Heq.
  split; [exact Heq|]. split.
  - intros Hne Hall. rewrite Heq. rewrite decide_False by done.
    apply mapM_is_Some_2, Forall_forall.
    intros i [_ Hi]%elem_of_seq. simpl in Hi.
    destruct (lookup_lt_is_Some_2 static i) as [inst Hinst]; [lia|].
    destruct (Forall2_lookup_l _ _ _ _ _ Hall Hinst) as (idx & Hidx & Hpts).
    apply Forall_cons in Hpts as [[depot Hdepot] Hpts].
    apply mapM_is_Some_2 in Hpts as [tour Htour].
    simpl. rewrite Hinst, Hidx. simpl. rewrite Htour. simpl. by rewrite Hdepot.
  - intros r i inst j depot p Hr Hinst Hidx Hdepot Hp.
    rewrite Heq in Hr. destruct (decide (static = [])); [done|].
    apply mapM_Some_1 in Hr.
    destruct (Forall2_lookup_l _ _ _ i i Hr) as (v & Hv & Hval).
    { apply lookup_seq. split; [done|]. by eapply lookup_lt_Some. }
    rewrite Hv. rewrite Hinst, Hidx in Hval. simpl in Hval.
    rewrite Hp in Hval. simpl in Hval. rewrite Hdepot in Hval. simpl in Hval.
    injection Hval as <-. f_equal.
    unfold path_length. simpl. rewrite (euclid_sym tsum p depot).
    apply tsum_twice; [done|]. by apply sign_clear_euclid.
Qed.

(** ** Instance generation *)

Section InitFacts.
Variable manual_seed : Z → generator.


Lemma init_succeeds ns isz ml md seed :
  md ≤ ml → 1 ≤ md → 0 ≤ ns → 0 ≤ isz → float_overflows ml = false →
  ∃ ds, init manual_seed ns isz ml md seed = inr ds.
Proof.
  intros ? ? ? ? Hfl. unfold init. rewrite Hfl.
  destruct (Z.ltb_spec ml md); [lia|].
  destruct (Z.ltb_spec ns 0); [lia|]. destruct (Z.ltb_spec (isz + 1) 0); [lia|]. simpl.
  destruct (Z.eqb_spec (isz + 1) 0); [lia|]. destruct (Z.eqb_spec ml 0); [lia|].
  destruct (Z.leb_spec (md + 1) 1); [lia|]. by eexists.
Qed.


Lemma tensor3_one_row {A} (n m : nat) (f : nat → A) t :
  t ∈ tensor3 n 1 m f →
  ∃ f', t = [f' <$> seq 0 m] ∧ ∀ k, ∃ p, f' k = f p.
Proof.
  unfold tensor3. intros (i & -> & _)%list_elem_of_fmap. simpl.
  eexists. split; [done|]. intros k. by eexists.
Qed.

Lemma init_dynamic ns isz ml md seed ds :
  init manual_seed ns isz ml md seed = inr ds →
  (0 < Z.to_nat (isz + 1))%nat ∧
  length (dynamic ds) = Z.to_nat ns ∧
  Forall (λ x, feat0 x = replicate (Z.to_nat (isz + 1)) F32.one ∧
               length (feat1 x) = Z.to_nat (isz + 1)) (dynamic ds).
Proof.
  unfold init. intros Hinit. repeat case_match; simplify_eq/=.
  split; [lia|]. split.
  { rewrite length_zip_with, !length_fmap. unfold tensor3.
    rewrite !length_fmap, !length_seq. lia. }
  apply Forall_forall. intros x (l & d & -> & Hl & Hd)%elem_of_zip_with. simpl.
  apply tensor3_one_row in Hl as (fl & -> & Hfl).
  apply list_elem_of_fmap in Hd as (d' & -> & Hd').
  apply list_elem_of_fmap in Hd' as (d'' & -> & Hd'').
  apply tensor3_one_row in Hd'' as (fd & -> & _).
  split.
  - simpl. rewrite app_nil_r.
    rewrite (const_fmap fl _ F32.one); [by rewrite length_seq|].
    intros _ k _. by destruct (Hfl k) as [p ->].
  - destruct (Z.to_nat (isz + 1)) as [|m] eqn:Hm; [lia|].
    simpl. by rewrite app_nil_r, !length_fmap, length_seq.
Qed.

End InitFacts.

(** ** Generation and totality of the step operations *)



(** C10: the rows of loads are uniform in the generated state, and
    [update_dynamic] leaves every row of loads uniform: filled with 1 for
    a visit of the depot, with the new load for a visit of a customer. *)
Theorem load_rows_uniform manual_seed num_samples input_size max_load max_demand
    seed ds (n : nat) state chosen_idx :
  (init manual_seed num_samples input_size max_load max_demand seed = inr ds →
   Forall (uniform_loads (Z.to_nat (input_size + 1))) (dynamic ds)) ∧
  ((0 < n)%nat → has_shape n state → length chosen_idx = length state →
   in_range n chosen_idx →
   ∃ dyn', update_dynamic max_load state chosen_idx = Some dyn' ∧
     has_shape n dyn' ∧ Forall (uniform_loads n) dyn' ∧
     ∀ (i : nat) c y, chosen_idx !! i = Some c → dyn' !! i = Some y →
       if c =? 0 then feat0 y = replicate n F32.one
       else ∃ x l d, state !! i = Some x ∧
              feat0 x !! Z.to_nat c = Some l ∧ feat1 x !! Z.to_nat c = Some d ∧
              feat0 y = replicate n (new_load_of max_load l d)).
Proof.
  split.
  - intros Hds. destruct (init_dynamic _ _ _ _ _ _ _ Hds) as (_ & _ & Hall).
    eapply Forall_impl; [exact Hall|]. intros x [Hx _]. by exists F32.one.
  - intros Hn Hshape Hlen Hrange.
    destruct (update_dynamic_spec max_load n Hn state chosen_idx)
      as (dyn' & Hdyn & Hlen' & Hrows); [done..|].
    exists dyn'. split; [done|].
    assert (Hrow : ∀ (i : nat) y, dyn' !! i = Some y →
              ∃ x c, state !! i = Some x ∧ chosen_idx !! i = Some c ∧
                length (feat1 y) = n ∧
                (c = 0 → feat0 y = replicate n F32.one) ∧
                (c ≠ 0 → ∃ l d, feat0 x !! Z.to_nat c = Some l ∧
                           feat1 x !! Z.to_nat c = Some d ∧
                           feat0 y = replicate n (new_load_of max_load l d))).
    { intros i y Hy.
      destruct (lookup_lt_is_Some_2 state i) as [x Hx].
      { rewrite <-Hlen'. by eapply lookup_lt_Some. }
      destruct (lookup_lt_is_Some_2 chosen_idx i) as [c Hc].
      { rewrite Hlen, <-Hlen'. by eapply lookup_lt_Some. }
      destruct (Hrows i x c Hx Hc) as (y' & Hy' & Hl1 & H0 & H1).
      assert (y' = y) as -> by congruence.
      exists x, c. split_and!; [done..|intros Hc0; by destruct (H0 Hc0)|].
      intros Hc0. destruct (H1 Hc0) as (l & d & d0 & ? & ? & _ & ? & _). by exists l, d. }
    split_and!.
    + apply Forall_forall. intros y [i Hy]%list_elem_of_lookup.
      destruct (Hrow i y Hy) as (x & c & _ & _ & Hl1 & H0 & H1).
      split; [|done]. destruct (decide (c = 0)) as [Hc|Hc].
      * rewrite (H0 Hc). by rewrite length_replicate.
      * destruct (H1 Hc) as (l & d & _ & _ & ->). by rewrite length_replicate.
    + apply Forall_forall. intros y [i Hy]%list_elem_of_lookup.
      destruct (Hrow i y Hy) as (x & c & _ & _ & _ & H0 & H1).
      destruct (decide (c = 0)) as [Hc|Hc]; [by eexists; apply H0|].
      destruct (H1 Hc) as (l & d & _ & _ & Hy'). by eexists.
    + intros i c y Hc Hy.
      destruct (Hrow i y Hy) as (x & c' & Hx & Hc' & _ & H0 & H1).
      assert (c' = c) as -> by congruence.
      destruct (Z.eqb_spec c 0) as [Hc0|Hc0]; [by apply H0|].
      destruct (H1 Hc0) as (l & d & ? & ? & ?). by exists x, l, d.
Qed.

(** ** The statements at concrete batches *)

Lemma mask_zero_iff_batch_finished_witness :
  well_shaped [served_instance; fresh_instance] [2; 2] ∧
  ∃ m r, update_mask 20 [served_instance; fresh_instance] [2; 2] = Some m ∧
    m !! 0%nat = Some r ∧
    (Forall (λ b, b = 0) r ↔ Forall (finished 20) [served_instance; fresh_instance]) ∧
    (Forall (λ b, b = 0) r → finished 20 served_instance).
Proof.
  assert (Hws : well_shaped [served_instance; fresh_instance] [2; 2]).
  { split; [reflexivity|]. repeat constructor; discriminate. }
  split; [exact Hws|].
  apply (mask_zero_iff_batch_finished 20 _ _ 0 served_instance Hws). reflexivity.
Defined.

Lemma forced_return_to_depot_witness :
  ∃ m, update_mask 20 [served_instance; fresh_instance] [2; 2] = Some m ∧
    m !! 0%nat = Some [1; 0; 0; 0].
Proof.
  apply (forced_return_to_depot 20 [served_instance; fresh_instance] [2; 2] 0
           served_instance).
  - split; [reflexivity|]. repeat constructor; discriminate.
  - apply Exists_cons_tl, Exists_cons_hd. unfold finished.
    replace (customer_units 20 fresh_instance) with [9; 9; 9] by (vm_compute; reflexivity).
    intros H. apply Forall_cons_1 in H as [H _]. discriminate H.
  - reflexivity.
  - right. vm_compute. reflexivity.
Defined.

Lemma no_back_to_back_depot_witness :
  ∃ m r, update_mask 20 [fresh_instance; served_instance] [0; 0] = Some m ∧
    m !! 0%nat = Some r ∧ head r = Some 0.
Proof.
  apply (no_back_to_back_depot 20 [fresh_instance; served_instance] [0; 0] 0
           fresh_instance 20).
  - split; [reflexivity|]. repeat constructor; discriminate.
  - reflexivity.
  - reflexivity.
  - vm_compute. reflexivity.
  - lia.
  - replace (customer_units 20 fresh_instance) with [9; 9; 9] by (vm_compute; reflexivity).
    repeat constructor; lia.
  - replace (customer_units 20 fresh_instance) with [9; 9; 9] by (vm_compute; reflexivity).
    apply Exists_cons_hd. lia.
Defined.

Lemma mask_ignores_depot_marker_witness :
  ∃ m, update_mask 20 [fresh_instance] [3] = Some m ∧
       update_mask 20 [marked_instance] [3] = Some m.
Proof.
  apply (mask_ignores_depot_marker 20 [fresh_instance] [marked_instance] [3]).
  - split; [reflexivity|]. repeat constructor; discriminate.
  - constructor; [|constructor].
    split; [reflexivity|]. split; [reflexivity|]. split; discriminate.
Defined.

Lemma reward_is_path_length_witness :
  reward sum_left_to_right [one_customer] [[1]] = Some [F32.of_Z 2] ∧
  [F32.of_Z 2] !! 0%nat
  = Some (F32.add (euclid sum_left_to_right [F32.zero; F32.zero]
                     [normalized 5 3; normalized 5 4])
                  (euclid sum_left_to_right [F32.zero; F32.zero]
                     [normalized 5 3; normalized 5 4])).
Proof.
  assert (Hr : reward sum_left_to_right [one_customer] [[1]] = Some [F32.of_Z 2])
    by (vm_compute; reflexivity).
  split; [exact Hr|].
  destruct (reward_is_path_length sum_left_to_right [one_customer] [[1]]
              sum_left_to_right_summation) as (_ & _ & H).
  apply (H [F32.of_Z 2] 0%nat one_customer 1); [exact Hr|reflexivity..].
Defined.


Lemma load_rows_uniform_witness :
  Forall (uniform_loads (Z.to_nat (3 + 1))) demo_batch ∧
  ∃ dyn', update_dynamic 20 [fresh_instance; served_instance] [1; 0] = Some dyn' ∧
    has_shape 4 dyn' ∧ Forall (uniform_loads 4) dyn' ∧
    ∀ (i : nat) c y, [1; 0] !! i = Some c → dyn' !! i = Some y →
      if c =? 0 then feat0 y = replicate 4 F32.one
      else ∃ x l d, [fresh_instance; served_instance] !! i = Some x ∧
             feat0 x !! Z.to_nat c = Some l ∧ feat1 x !! Z.to_nat c = Some d ∧
             feat0 y = replicate 4 (new_load_of 20 l d).
Proof.
  destruct (init_succeeds (stream_generator (replicate 8 8)) 2 3 20 9 1234)
    as [ds Hds]; [lia..|reflexivity|].
  destruct (load_rows_uniform (stream_generator (replicate 8 8)) 2 3 20 9 1234 ds
              4 [fresh_instance; served_instance] [1; 0]) as (H1 & H2).
  split.
  - unfold demo_batch. rewrite Hds. exact (H1 Hds).
  - apply H2; [lia| |reflexivity|].
    + repeat constructor.
    + repeat constructor; lia.
Defined.

(** ** Runs on which the code leaves the description *)

(** C2 at a batch where one instance returns to the depot while the next
    one visits a customer.  Both samples of [demo_batch] visit customers
    1 and 2; each is left with load 2, and the mask allows the depot and
    customer 3 (demand 9).  Sample 0 then returns to the depot and sample
    1 visits customer 3: with [L = 2] and [D = 9] its remaining demand
    should be [D - min(L, D) = 7] ([new_demand_of] gives 7), but the
    state stores 0 there. *)
Theorem mixed_batch_loses_demand :
  units_view 20 (Some demo_batch)
  = Some [mkFeat [20; 20; 20; 20] [0; 9; 9; 9]; mkFeat [20; 20; 20; 20] [0; 9; 9; 9]] ∧
  units_view 20 (apply_choices 20 demo_batch [[1; 1]; [2; 2]])
  = Some [mkFeat [2; 2; 2; 2] [-18; 0; 0; 9]; mkFeat [2; 2; 2; 2] [-18; 0; 0; 9]] ∧
  (d ← apply_choices 20 demo_batch [[1; 1]; [2; 2]]; update_mask 20 d [2; 2])
  = Some [[1; 0; 0; 1]; [1; 0; 0; 1]] ∧
  (d ← apply_choices 20 demo_batch [[1; 1]; [2; 2]];
   x ← d !! 1%nat; l ← feat0 x !! 3%nat; dm ← feat1 x !! 3%nat;
   Some (to_units 20 l, to_units 20 dm,
         to_units 20 (new_load_of 20 l dm), to_units 20 (new_demand_of 20 l dm)))
  = Some (2, 9, 0, 7) ∧
  units_view 20 (apply_choices 20 demo_batch [[1; 1]; [2; 2]; [0; 3]])
  = Some [mkFeat [20; 20; 20; 20] [0; 0; 0; 9]; mkFeat [0; 0; 0; 0] [-20; 0; 0; 0]].
Proof. vm_compute. done. Qed.

(** C9 at the same state: sample 1 has the same state and the same chosen
    index in both calls, and its row of demands differs with the index
    chosen for sample 0. *)
Theorem other_instance_changes_row :
  (d ← apply_choices 20 demo_batch [[1; 1]; [2; 2]];
   units_view 20 (update_dynamic 20 d [0; 3]))
  = Some [mkFeat [20; 20; 20; 20] [0; 0; 0; 9]; mkFeat [0; 0; 0; 0] [-20; 0; 0; 0]] ∧
  (d ← apply_choices 20 demo_batch [[1; 1]; [2; 2]];
   units_view 20 (update_dynamic 20 d [1; 3]))
  = Some [mkFeat [2; 2; 2; 2] [-18; 0; 0; 9]; mkFeat [0; 0; 0; 0] [-20; 0; 0; 7]].
Proof. vm_compute. done. Qed.

(** C5 at capacity 23 and at capacity 41.  With demands 9 and 6 and
    capacity 23 the load is read as 13 after the first visit and as 6
    after the second one; the exact loads are 14 and 8.  With demands 9,
    6, 9, 7 and capacity 41 the load is read as 7 after four visits; the
    exact load is 10. *)
Theorem units_drift_over_steps :
  units_view 23 (Some drift_batch) = Some [mkFeat [23; 23; 23] [0; 9; 6]] ∧
  units_view 23 (apply_choices 23 drift_batch [[1]])
  = Some [mkFeat [13; 13; 13] [-9; 0; 6]] ∧
  exact_run 23 (23, [0; 9; 6]) [1] = (14, [0; 0; 6]) ∧
  units_view 23 (apply_choices 23 drift_batch [[1]; [2]])
  = Some [mkFeat [6; 6; 6] [-16; 0; 0]] ∧
  exact_run 23 (23, [0; 9; 6]) [1; 2] = (8, [0; 0; 0]) ∧
  units_view 41 (Some long_drift_batch) = Some [mkFeat [41; 41; 41; 41; 41] [0; 9; 6; 9; 7]] ∧
  units_view 41 (apply_choices 41 long_drift_batch [[1]; [2]; [3]; [4]])
  = Some [mkFeat [7; 7; 7; 7; 7] [-33; 0; 0; 0; 0]] ∧
  exact_run 41 (41, [0; 9; 6; 9; 7]) [1; 2; 3; 4] = (10, [0; 0; 0; 0; 0]).
Proof. vm_compute. done. Qed.

(** The capacities up to 21, among them the default 20, store every value
    of [0 .. capacity] so that it is read back; 22 is the first capacity
    that does not (13/22 is read as 12). *)
Lemma reads_back_up_to_21 : forallb reads_back (seqZ 1 21) = true.
Proof. vm_compute. reflexivity. Qed.

Lemma reads_back_fails_at_22 :
  reads_back 22 = false ∧ to_units 22 (normalized 22 13) = 12.
Proof. vm_compute. done. Qed.

(** ** More on the mask *)

Section MaskShape.
Variable max_load : Z.

Lemma mask_row_binary l0 d c : Forall (λ b, b = 0 ∨ b = 1) (mask_row l0 d c).
Proof.
  unfold mask_row. destruct (0 <? _).
  - constructor; [by right|]. apply Forall_replicate. by left.
  - constructor; [destruct (c =? 0); simpl; auto|].
    apply Forall_fmap, Forall_true. intros z. unfold ne0. simpl.
    destruct (z =? 0); simpl; auto.
Qed.

Lemma mask_row_length l0 d c : d ≠ [] → length (mask_row l0 d c) = length d.
Proof.
  intros Hd. destruct d as [|x d]; [done|]. unfold mask_row.
  destruct (0 <? _); simpl; by rewrite ?length_replicate, ?length_fmap, ?drop_0, ?Nat.sub_0_r.
Qed.

Lemma mask_row_served l0 d c (j : nat) :
  (0 < j)%nat → d !! j = Some 0 → mask_row l0 d c !! j = Some 0.
Proof.
  intros Hj Hd. destruct j as [|j]; [lia|]. unfold mask_row.
  destruct (0 <? _); simpl.
  - apply lookup_replicate_2. apply lookup_lt_Some in Hd. lia.
  - rewrite list_lookup_fmap, lookup_drop. simpl. by rewrite Hd.
Qed.

Lemma update_mask_length dynamic chosen_idx m :
  well_shaped dynamic chosen_idx →
  update_mask max_load dynamic chosen_idx = Some m → length m = length dynamic.
Proof.
  intros [Hlen Hne] Hm.
  rewrite update_mask_rows in Hm; [|done|by eapply Forall_impl; [exact Hne|intros ? [??]]].
  cbv zeta in Hm. destruct (no_demand_left _).
  - injection Hm as <-. by rewrite !length_fmap.
  - destruct (col0 _) as [loads0|] eqn:Hcol; simpl in Hm; [|done].
    injection Hm as <-. apply length_mapM in Hcol.
    rewrite !length_fmap in Hcol. solve_length.
Qed.

(** X1: the mask has one row per instance, each row has one entry per
    node, every entry is 0 or 1, and a customer whose remaining demand
    reads 0 is never legal. *)
Theorem mask_shape_and_served_customers dynamic chosen_idx (i : nat) x :
  well_shaped dynamic chosen_idx →
  dynamic !! i = Some x →
  ∃ m r, update_mask max_load dynamic chosen_idx = Some m ∧
    length m = length dynamic ∧ m !! i = Some r ∧
    length r = length (feat1 x) ∧
    Forall (λ b, b = 0 ∨ b = 1) r ∧
    ∀ j : nat, (0 < j)%nat → (to_units max_load <$> feat1 x) !! j = Some 0 →
      r !! j = Some 0.
Proof.
  intros Hws Hx.
  assert (is_Some (chosen_idx !! i)) as [c Hc].
  { apply lookup_lt_is_Some. rewrite (proj1 Hws). by eapply lookup_lt_Some. }
  destruct (update_mask_row max_load _ _ _ _ _ Hws Hx Hc) as (m & l0 & Hm & _ & Hr).
  assert (Hd : to_units max_load <$> feat1 x ≠ []).
  { destruct Hws as [_ Hne]. rewrite Forall_forall in Hne.
    destruct (Hne x) as [_ ?]; [by eapply list_elem_of_lookup_2|].
    by destruct (feat1 x). }
  eexists m, _. split; [done|]. split; [by eapply update_mask_length|].
  split; [exact Hr|]. destruct (no_demand_left _).
  - split_and!.
    + by rewrite !length_fmap.
    + apply Forall_fmap, Forall_true. intros z. simpl. left. lia.
    + intros j _ Hj. rewrite list_lookup_fmap, Hj. done.
  - split_and!.
    + by rewrite mask_row_length, length_fmap.
    + apply mask_row_binary.
    + intros j Hj Hz. by apply mask_row_served.
Qed.

(** X2: in a batch that is not finished, an instance with a load that
    does not read 0 and customers' demands that do not sum to 0 may go to
    exactly the customers whose remaining demand is not 0, and to the
    depot exactly when its last chosen node was not the depot. *)
Theorem default_legality dynamic chosen_idx (i : nat) x c l :
  well_shaped dynamic chosen_idx →
  dynamic !! i = Some x → chosen_idx !! i = Some c →
  load_units max_load x = Some l → l ≠ 0 →
  row_sum (customer_units max_load x) ≠ 0 →
  ∃ m r, update_mask max_load dynamic chosen_idx = Some m ∧ m !! i = Some r ∧
    (head r = Some 1 ↔ c ≠ 0) ∧ (head r = Some 0 ↔ c = 0) ∧
    ∀ (j : nat) d, (0 < j)%nat → (to_units max_load <$> feat1 x) !! j = Some d →
      (r !! j = Some 1 ↔ d ≠ 0) ∧ (r !! j = Some 0 ↔ d = 0).
Proof.
  intros Hws Hx Hc Hl Hl0 Hs.
  destruct (update_mask_row max_load _ _ _ _ _ Hws Hx Hc) as (m & l0 & Hm & Hl' & Hr).
  assert (l0 = l) as -> by congruence.
  eexists m, _. split; [done|]. split; [exact Hr|].
  destruct (no_demand_left _) eqn:Hfin.
  { apply no_demand_left_finished in Hfin. rewrite Forall_forall in Hfin.
    destruct Hs. apply row_sum_zeros, Hfin. by eapply list_elem_of_lookup_2. }
  rewrite mask_row_free by done. simpl. split_and!.
  - destruct (Z.eqb_spec c 0); simpl; split; intros; congruence.
  - destruct (Z.eqb_spec c 0); simpl; split; intros; congruence.
  - intros [|j] d Hj Hd; [lia|]. simpl.
    rewrite list_lookup_fmap, lookup_drop. simpl. rewrite Hd. simpl. unfold ne0.
    destruct (Z.eqb_spec d 0); simpl; split; split; intros; congruence.
Qed.

End MaskShape.

Section MaskEdges.
Variable max_load : Z.

Lemma any_or_any_negb (m : list bool) : m ≠ [] → any m = true ∨ any (negb <$> m) = true.
Proof. destruct m as [|[] m]; [done|by left|by right]. Qed.

(** X3: once every instance is finished [update_mask] returns the zero
    mask of the batch without reading [chosen_idx]; on a batch that is
    not finished, an index vector that is not empty and has not one entry
    per instance is rejected. *)
Theorem mask_and_index_vector dynamic chosen_idx :
  (Forall (finished max_load) dynamic →
   update_mask max_load dynamic chosen_idx
   = Some ((λ x, replicate (length (feat1 x)) 0) <$> dynamic)) ∧
  (¬ Forall (finished max_load) dynamic → chosen_idx ≠ [] →
   length chosen_idx ≠ length dynamic →
   update_mask max_load dynamic chosen_idx = None).
Proof.
  split.
  - intros Hfin. apply no_demand_left_finished in Hfin. unfold update_mask.
    rewrite Hfin. f_equal. rewrite <-!list_fmap_compose. apply list_fmap_ext.
    intros _ x _. simpl. rewrite <-list_fmap_compose.
    apply const_fmap. intros; simpl; lia.
  - intros Hfin Hne Hlen. unfold update_mask.
    destruct (no_demand_left _) eqn:Hnd; [by apply no_demand_left_finished in Hnd|].
    set (repeat_home := (λ c, negb (c =? 0)) <$> chosen_idx).
    assert (Hrh : repeat_home ≠ []) by (unfold repeat_home; by destruct chosen_idx).
    assert (Hbad : ∀ (f : list Z → option (list Z)) (sel : list bool) t,
              length sel = length chosen_idx → length t = length dynamic →
              masked_rows sel f t = None).
    { intros f sel t Hs Ht. unfold masked_rows. rewrite decide_False; [done|lia]. }
    destruct (any repeat_home) eqn:Hany.
    + rewrite Hbad; [done|unfold repeat_home|]; solve_length.
    + simpl. destruct (any_or_any_negb repeat_home Hrh) as [?|Hany2]; [congruence|].
      rewrite Hany2, Hbad; [done|unfold repeat_home|]; solve_length.
Qed.

Lemma same_but_load_tail_units d1 d2 :
  Forall2 same_but_load_tail d1 d2 →
  feat1 <$> (Feat_map (to_units max_load) <$> d1)
    = feat1 <$> (Feat_map (to_units max_load) <$> d2) ∧
  col0 (feat0 <$> (Feat_map (to_units max_load) <$> d1))
    = col0 (feat0 <$> (Feat_map (to_units max_load) <$> d2)).
Proof.
  induction 1 as [|x y d1 d2 (H1 & H0 & Hx & Hy) _ [IH1 IH0]]; [done|].
  rewrite !fmap_cons. split; [f_equal; [cbn; by rewrite H1|done]|].
  unfold col0 in *. cbn [mapM]. rewrite IH0. cbn.
  destruct (feat0 x) as [|a t], (feat0 y) as [|b t']; simplify_eq/=. done.
Qed.

(** X4: of the loads, [update_mask] reads slot 0 of each instance only:
    two batches with the same demands and the same loads in slot 0 get
    the same mask. *)
Theorem mask_reads_first_load_slot d1 d2 chosen_idx :
  well_shaped d1 chosen_idx →
  Forall2 same_but_load_tail d1 d2 →
  ∃ m, update_mask max_load d1 chosen_idx = Some m ∧
       update_mask max_load d2 chosen_idx = Some m.
Proof.
  intros Hws Hsame. pose proof Hws as [Hlen Hne].
  assert (Hlen2 : length chosen_idx = length d2).
  { rewrite Hlen. by eapply Forall2_length. }
  assert (Hne1 : Forall (λ x, feat1 x ≠ []) d1).
  { eapply Forall_impl; [exact Hne|]. by intros ? [??]. }
  assert (Hne2 : Forall (λ x, feat1 x ≠ []) d2).
  { apply Forall_forall. intros y [i Hy]%list_elem_of_lookup.
    destruct (Forall2_lookup_r _ _ _ _ _ Hsame Hy) as (x & Hx & (H1 & _)).
    rewrite <-H1. rewrite Forall_forall in Hne1. apply Hne1.
    by eapply list_elem_of_lookup_2. }
  destruct d1 as [|x d1].
  { apply Forall2_nil_inv_l in Hsame as ->. destruct chosen_idx; [|done]. by eexists. }
  destruct chosen_idx as [|c chosen_idx]; [done|].
  destruct (update_mask_row max_load (x :: d1) (c :: chosen_idx) 0 x c Hws)
    as (m & _ & Hm & _); [done..|].
  exists m. split; [done|]. rewrite <-Hm.
  rewrite !update_mask_rows by done. cbv zeta.
  destruct (same_but_load_tail_units _ _ Hsame) as [-> ->]. done.
Qed.

End MaskEdges.

(** ** More on the transition *)

Section TransitionFacts.
Variable max_load : Z.
Variable n : nat.
Hypothesis n_pos : (0 < n)%nat.

Lemma Feat_eta {A} (y : Feat A) l d : feat0 y = l → feat1 y = d → y = mkFeat l d.
Proof. destruct y. simpl. by intros -> ->. Qed.

(** X5: an instance that returns to the depot gets the load 1 in every
    slot, whatever the other instances of the batch choose.  In a batch of
    two instances or more it gets 0 in the depot slot of its demands and
    keeps the demands of its customers.  In a batch of one the squeezed
    mask is 0-dim, and the whole row of demands is set to 0: the demands
    of the customers are lost. *)
Theorem depot_visit_refills state chosen_idx (i : nat) x :
  has_shape n state → length chosen_idx = length state → in_range n chosen_idx →
  state !! i = Some x → chosen_idx !! i = Some 0 →
  ∃ dyn', update_dynamic max_load state chosen_idx = Some dyn' ∧
    dyn' !! i = Some (mkFeat (replicate n F32.one)
                        (if decide (length state = 1%nat)
                         then replicate n F32.zero
                         else <[0%nat := F32.zero]> (feat1 x))).
Proof.
  intros Hshape Hlen Hrange Hx Hc.
  destruct (update_dynamic_spec max_load n n_pos state chosen_idx)
    as (dyn' & Hdyn & _ & Hrows); [done..|].
  exists dyn'. split; [done|].
  destruct (Hrows i x 0 Hx Hc) as (y & -> & _ & H0 & _).
  destruct H0 as [H0 H1]; [done|]. f_equal. by apply Feat_eta.
Qed.

(** X6: a visit of customer [c] changes, in the demands of the visiting
    instance, the depot slot and slot [c] only; the row keeps its length,
    and the depot slot receives the marker computed from the new load. *)
Theorem customer_visit_frame state chosen_idx (i : nat) x c :
  has_shape n state → length chosen_idx = length state → in_range n chosen_idx →
  state !! i = Some x → chosen_idx !! i = Some c → c ≠ 0 →
  ∃ dyn' y l d d0, update_dynamic max_load state chosen_idx = Some dyn' ∧
    length dyn' = length state ∧ dyn' !! i = Some y ∧
    feat0 x !! Z.to_nat c = Some l ∧ feat1 x !! Z.to_nat c = Some d ∧
    feat1 x !! 0%nat = Some d0 ∧
    length (feat0 y) = n ∧ length (feat1 y) = n ∧
    feat1 y !! 0%nat = Some (marker_of d0 (new_load_of max_load l d)) ∧
    ∀ j : nat, j ≠ 0%nat → j ≠ Z.to_nat c → feat1 y !! j = feat1 x !! j.
Proof.
  intros Hshape Hlen Hrange Hx Hc Hc0.
  destruct (update_dynamic_spec max_load n n_pos state chosen_idx)
    as (dyn' & Hdyn & Hlen' & Hrows); [done..|].
  destruct (Hrows i x c Hx Hc) as (y & Hy & Hl1 & _ & H1).
  destruct (H1 Hc0) as (l & d & d0 & Hl & Hd & Hd0 & Hf0 & Hm & Hframe & _).
  exists dyn', y, l, d, d0. split_and!; try done.
  by rewrite Hf0, length_replicate.
Qed.

(** X7: in a batch where every instance visits a customer, the chosen
    slot of each instance receives the new demand computed from the load
    and the demand of that instance, and its row of loads the new load. *)
Theorem all_visit_batch state chosen_idx (i : nat) x c :
  has_shape n state → length chosen_idx = length state → in_range n chosen_idx →
  Forall (λ c, c ≠ 0) chosen_idx →
  state !! i = Some x → chosen_idx !! i = Some c →
  ∃ dyn' y l d, update_dynamic max_load state chosen_idx = Some dyn' ∧
    dyn' !! i = Some y ∧
    feat0 x !! Z.to_nat c = Some l ∧ feat1 x !! Z.to_nat c = Some d ∧
    feat0 y = replicate n (new_load_of max_load l d) ∧
    feat1 y !! Z.to_nat c = Some (new_demand_of max_load l d).
Proof.
  intros Hshape Hlen Hrange Hnz Hx Hc.
  destruct (update_dynamic_spec max_load n n_pos state chosen_idx)
    as (dyn' & Hdyn & Hlen' & Hrows); [done..|].
  destruct (Hrows i x c Hx Hc) as (y & Hy & Hl1 & _ & H1).
  assert (Hc0 : c ≠ 0).
  { rewrite Forall_forall in Hnz. apply Hnz. by eapply list_elem_of_lookup_2. }
  destruct (H1 Hc0) as (l & d & d0 & Hl & Hd & Hd0 & Hf0 & Hm & Hframe & Hnew).
  exists dyn', y, l, d. split_and!; try done. by apply Hnew.
Qed.

(** X8: [update_dynamic] fails when an instance of the batch chooses an
    index that is negative or not below the number of nodes: both
    [torch.gather] calls come first and raise. *)
Theorem transition_rejects_bad_indices state chosen_idx :
  has_shape n state → length chosen_idx = length state →
  ¬ in_range n chosen_idx →
  update_dynamic max_load state chosen_idx = None.
Proof.
  intros Hshape Hlen0 Hbad. unfold update_dynamic.
  assert (Hg : gather (feat0 <$> state) chosen_idx = None); [|by rewrite Hg].
  unfold gather. destruct (decide (length chosen_idx = length (feat0 <$> state)))
    as [Hlen|Hlen]; [|done].
  rewrite length_fmap in Hlen.
  apply mapM_None_2.
  apply not_Forall_Exists in Hbad; [|intros c; apply _].
  apply Exists_exists in Hbad as (c & Hc & Hout).
  apply list_elem_of_lookup in Hc as [i Hc].
  destruct (lookup_lt_is_Some_2 state i) as [x Hx].
  { rewrite <-Hlen. by eapply lookup_lt_Some. }
  apply Exists_exists. exists (feat0 x, c). split.
  - apply list_elem_of_lookup. exists i.
    by rewrite lookup_zip_with, list_lookup_fmap, Hx, Hc.
  - simpl. destruct (Z.ltb_spec c 0); [done|].
    apply lookup_ge_None. unfold has_shape in Hshape. rewrite Forall_forall in Hshape.
    destruct (Hshape x) as [-> _]; [by eapply list_elem_of_lookup_2|].
    simpl in Hout. lia.
Qed.

(** X9: a run of the decision loop with index vectors that fit the batch
    never fails: every call returns a state of the same shape, and after
    the first call every row of loads is uniform. *)
Theorem run_never_fails state choices :
  has_shape n state → choices_fit (length state) n choices →
  ∃ dyn', apply_choices max_load state choices = Some dyn' ∧
    length dyn' = length state ∧ has_shape n dyn' ∧
    (choices ≠ [] → Forall (uniform_loads n) dyn').
Proof.
  intros Hshape Hfit. revert state Hshape Hfit.
  induction choices as [|chosen_idx choices IH]; intros state Hshape Hfit.
  { exists state. by split_and!. }
  apply Forall_cons in Hfit as [[Hlen Hrange] Hfit]. simpl.
  destruct (update_dynamic_spec max_load n n_pos state chosen_idx)
    as (dyn1 & Hdyn & Hlen1 & Hrows); [done..|].
  rewrite Hdyn. simpl.
  assert (Hrow : ∀ y, y ∈ dyn1 → length (feat0 y) = n ∧ length (feat1 y) = n ∧
                                  uniform_loads n y).
  { intros y [i Hy]%list_elem_of_lookup.
    destruct (lookup_lt_is_Some_2 state i) as [x Hx].
    { rewrite <-Hlen1. by eapply lookup_lt_Some. }
    destruct (lookup_lt_is_Some_2 chosen_idx i) as [c Hc].
    { rewrite Hlen, <-Hlen1. by eapply lookup_lt_Some. }
    destruct (Hrows i x c Hx Hc) as (y' & Hy' & Hl1 & H0 & H1).
    assert (y' = y) as -> by congruence.
    destruct (decide (c = 0)) as [Hc0|Hc0].
    - destruct (H0 Hc0) as [Hf0 _]. rewrite Hf0, length_replicate.
      split_and!; [done..|by eexists].
    - destruct (H1 Hc0) as (l & d & d0 & _ & _ & _ & Hf0 & _).
      rewrite Hf0, length_replicate. split_and!; [done..|by eexists]. }
  assert (Hshape1 : has_shape n dyn1).
  { apply Forall_forall. intros y Hy. by destruct (Hrow y Hy) as (? & ? & _). }
  destruct (IH dyn1 Hshape1) as (dyn' & Hrun & Hlen' & Hshape' & Huni).
  { by rewrite Hlen1. }
  exists dyn'. split_and!; [done|congruence|done|]. intros _.
  destruct choices as [|ch choices]; [|by apply Huni].
  simpl in Hrun. injection Hrun as <-.
  apply Forall_forall. intros y Hy. by destruct (Hrow y Hy) as (_ & _ & ?).
Qed.

(** X10: when the whole batch returns to the depot, doing so a second
    time changes nothing. *)
Theorem depot_return_idempotent state dyn' :
  has_shape n state →
  update_dynamic max_load state (replicate (length state) 0) = Some dyn' →
  update_dynamic max_load dyn' (replicate (length state) 0) = Some dyn'.
Proof.
  intros Hshape Hdyn.
  assert (Hrange : in_range n (replicate (length state) 0)).
  { apply Forall_replicate. lia. }
  destruct (update_dynamic_spec max_load n n_pos state (replicate (length state) 0))
    as (dyn1 & Hdyn1 & Hlen1 & Hrows1); [done|by rewrite length_replicate|done|].
  assert (dyn1 = dyn') as -> by congruence.
  assert (Hshape' : has_shape n dyn').
  { apply Forall_forall. intros y [i Hy]%list_elem_of_lookup.
    destruct (lookup_lt_is_Some_2 state i) as [x Hx].
    { rewrite <-Hlen1. by eapply lookup_lt_Some. }
    destruct (Hrows1 i x 0 Hx) as (y' & Hy' & Hl1 & H0 & _).
    { apply lookup_replicate_2. by eapply lookup_lt_Some. }
    assert (y' = y) as -> by congruence.
    destruct H0 as [-> _]; [done|]. by rewrite length_replicate. }
  destruct (update_dynamic_spec max_load n n_pos dyn' (replicate (length state) 0))
    as (dyn2 & Hdyn2 & Hlen2 & Hrows2); [done|by rewrite length_replicate|done|].
  rewrite Hdyn2. f_equal. apply list_eq. intros i.
  destruct (dyn' !! i) as [y|] eqn:Hy.
  - assert (Hi : (i < length state)%nat) by (rewrite <-Hlen1; by eapply lookup_lt_Some).
    destruct (lookup_lt_is_Some_2 state i Hi) as [x Hx].
    destruct (Hrows1 i x 0 Hx) as (y' & Hy' & _ & H0 & _).
    { by apply lookup_replicate_2. }
    assert (y' = y) as -> by congruence.
    destruct H0 as [Hf0 Hf1]; [done|].
    destruct (Hrows2 i y 0 Hy) as (z & -> & _ & H0' & _).
    { by apply lookup_replicate_2. }
    destruct H0' as [Hg0 Hg1]; [done|]. f_equal.
    rewrite (Feat_eta y _ _ Hf0 Hf1).
    apply Feat_eta; [done|]. rewrite Hg1, Hf1, Hlen1.
    destruct (decide (length state = 1%nat)); [done|].
    by rewrite list_insert_insert_eq.
  - apply lookup_ge_None. apply lookup_ge_None in Hy. lia.
Qed.

End TransitionFacts.

(** ** More on the reward *)

Section RewardFacts.
Variable tsum : list f32 → f32.
Hypothesis tsum_sums : summation tsum.

Lemma sub_diag a : finite a → F32.sub a a = F32.zero.
Proof.
  unfold F32.sub, F32.zero. destruct a as [s|s| |s m e]; simpl; try done.
  - by destruct s.
  - intros _. by rewrite Z.sub_diag.
Qed.

Lemma euclid_diag p : Forall finite p → euclid tsum p p = F32.zero.
Proof.
  intros Hp. unfold euclid.
  assert (Hz : (λ x, F32.mul x x) <$> zip_with F32.sub p p
               = replicate (length p) F32.zero).
  { induction Hp as [|a p Ha _ IH]; [done|]. simpl. rewrite sub_diag by done.
    f_equal. exact IH. }
  by rewrite Hz, (tsum_zeros tsum tsum_sums).
Qed.

Lemma legs_app pre p post :
  legs tsum (pre ++ p :: post) = legs tsum (pre ++ [p]) ++ legs tsum (p :: post).
Proof.
  induction pre as [|a [|b pre] IH]; [done| |].
  - by destruct post.
  - change (legs tsum ((a :: b :: pre) ++ p :: post))
      with (euclid tsum a b :: legs tsum ((b :: pre) ++ p :: post)).
    change (legs tsum ((a :: b :: pre) ++ [p]))
      with (euclid tsum a b :: legs tsum ((b :: pre) ++ [p])).
    by rewrite IH.
Qed.

(** The legs of a path that stays at [p] for one step: one leg of length
    0 between the legs before and the legs after. *)
Lemma legs_repeat pre p post :
  Forall finite p →
  legs tsum (pre ++ p :: p :: post)
  = legs tsum (pre ++ [p]) ++ F32.zero :: legs tsum (p :: post).
Proof.
  intros Hp. rewrite (legs_app pre p (p :: post)).
  change (legs tsum (p :: p :: post)) with (euclid tsum p p :: legs tsum (p :: post)).
  by rewrite euclid_diag.
Qed.

Lemma reward_lookup static tour_indices r (i : nat) inst :
  reward tsum static tour_indices = Some r → static !! i = Some inst →
  ∃ idx tour depot,
    tour_indices !! i = Some idx ∧
    mapM (point_at inst) idx = Some tour ∧ point_at inst 0 = Some depot ∧
    r !! i = Some (path_length tsum ([depot] ++ tour ++ [depot])).
Proof.
  intros Hr Hinst. rewrite reward_paths in Hr.
  destruct (decide (static = [])); [done|]. apply mapM_Some_1 in Hr.
  destruct (Forall2_lookup_l _ _ _ i i Hr) as (v & Hv & Hval).
  { apply lookup_seq. split; [done|]. by eapply lookup_lt_Some. }
  rewrite Hinst in Hval. simpl in Hval.
  destruct (tour_indices !! i) as [idx|] eqn:Hidx; simpl in Hval; [|done].
  destruct (mapM (point_at inst) idx) as [tour|] eqn:Htour; simpl in Hval; [|done].
  destruct (point_at inst 0) as [depot|] eqn:Hdepot; simpl in Hval; [|done].
  exists idx, tour, depot. split_and!; try done. by injection Hval as <-.
Qed.

(** X11: [reward] returns one value per instance, and none of them is
    negative: each is a float with a clear sign bit, or not a number. *)
Theorem reward_never_negative static tour_indices r :
  reward tsum static tour_indices = Some r →
  length r = length static ∧ Forall sign_clear r.
Proof.
  intros Hr.
  assert (Hlen : length r = length static).
  { rewrite reward_paths in Hr. destruct (decide (static = [])); [done|].
    apply length_mapM in Hr. by rewrite length_seq in Hr. }
  split; [done|].
  apply Forall_forall. intros v [i Hv]%list_elem_of_lookup.
  destruct (lookup_lt_is_Some_2 static i) as [inst Hinst].
  { rewrite <-Hlen. by eapply lookup_lt_Some. }
  destruct (reward_lookup _ _ _ _ _ Hr Hinst) as (idx & tour & depot & _ & _ & _ & Hri).
  assert (v = path_length tsum ([depot] ++ tour ++ [depot])) as -> by congruence.
  apply sign_clear_tsum; [done|]. by apply sign_clear_legs.
Qed.

(** X12: visiting a node twice in a row adds one leg of length 0 to the
    legs that [reward] sums, and changes no other leg, when the
    coordinates of the node are finite: with [before] the legs from the
    depot to the node and [after] the legs from the node back to the depot,
    the value of the tour [pre ++ j :: post] is the sum of
    [before ++ after] and the value of [pre ++ j :: j :: post] is the sum
    of [before ++ 0 :: after]; the values of the other instances are the
    same. *)
Theorem repeated_visit_adds_zero_leg static tour_indices r (i : nat) inst pre j post p :
  reward tsum static tour_indices = Some r →
  static !! i = Some inst →
  tour_indices !! i = Some (pre ++ j :: post) →
  point_at inst j = Some p → Forall finite p →
  ∃ r' depot tpre tpost,
    reward tsum static (<[i := pre ++ j :: j :: post]> tour_indices) = Some r' ∧
    point_at inst 0 = Some depot ∧
    mapM (point_at inst) pre = Some tpre ∧ mapM (point_at inst) post = Some tpost ∧
    let before := legs tsum (depot :: tpre ++ [p]) in
    let after := legs tsum (p :: tpost ++ [depot]) in
    r !! i = Some (tsum (before ++ after)) ∧
    r' !! i = Some (tsum (before ++ F32.zero :: after)) ∧
    ∀ k : nat, k ≠ i → r' !! k = r !! k.
Proof.
  intros Hr Hinst Hidx Hp Hfin.
  destruct (reward_lookup _ _ _ _ _ Hr Hinst)
    as (idx & tour & depot & Hidx' & Htour & Hdepot & Hri).
  assert (idx = pre ++ j :: post) as -> by congruence.
  apply mapM_Some_1 in Htour.
  apply Forall2_app_inv_l in Htour as (tpre & trest & Hpre & Hrest & ->).
  apply Forall2_cons_inv_l in Hrest as (p' & tpost & Hp' & Hpost & ->).
  assert (p' = p) as -> by congruence.
  apply mapM_Some_2 in Hpre. apply mapM_Some_2 in Hpost.
  assert (Hne : static ≠ []) by (by intros ->).
  assert (Hi : (i < length tour_indices)%nat) by (by eapply lookup_lt_Some).
  (* the loop on the new tours *)
  set (step := λ (t : list (list Z)) (k : nat),
         inst ← static !! k;
         idx ← t !! k;
         tour ← mapM (point_at inst) idx;
         depot ← point_at inst 0;
         Some (path_length tsum ([depot] ++ tour ++ [depot]))).
  assert (Hold : mapM (step tour_indices) (seq 0 (length static)) = Some r).
  { rewrite reward_paths in Hr. by rewrite decide_False in Hr. }
  assert (Hnew_i : step (<[i := pre ++ j :: j :: post]> tour_indices) i
                   = Some (tsum (legs tsum (depot :: tpre ++ [p])
                                 ++ F32.zero :: legs tsum (p :: tpost ++ [depot])))).
  { unfold step. rewrite Hinst, list_lookup_insert_eq by done. simpl.
    assert (Ht : mapM (point_at inst) (pre ++ j :: j :: post)
                 = Some (tpre ++ p :: p :: tpost)).
    { apply mapM_Some_2. apply mapM_Some_1 in Hpre. apply mapM_Some_1 in Hpost.
      apply Forall2_app; [done|]. by repeat constructor. }
    rewrite Ht. simpl. rewrite Hdepot. simpl. f_equal. unfold path_length. f_equal.
    rewrite <-(assoc_L (++) tpre). simpl.
    apply (legs_repeat (depot :: tpre) p (tpost ++ [depot]) Hfin). }
  assert (Hnew_k : ∀ k : nat, k ≠ i →
            step (<[i := pre ++ j :: j :: post]> tour_indices) k = step tour_indices k).
  { intros k Hk. unfold step. by rewrite list_lookup_insert_ne. }
  assert (Hnew : mapM (step (<[i := pre ++ j :: j :: post]> tour_indices))
                      (seq 0 (length static))
                 = Some (<[i := tsum (legs tsum (depot :: tpre ++ [p])
                                      ++ F32.zero :: legs tsum (p :: tpost ++ [depot]))]> r)).
  { apply mapM_Some_2. apply mapM_Some_1 in Hold.
    apply Forall2_same_length_lookup. split.
    - rewrite length_insert. by apply Forall2_length in Hold.
    - intros k a v Ha Hv. apply lookup_seq in Ha as [-> Hk]. simpl in Hv |- *.
      destruct (decide (k = i)) as [->|Hki].
      + rewrite list_lookup_insert_eq in Hv.
        * by injection Hv as <-.
        * rewrite <-(Forall2_length _ _ _ Hold), length_seq. lia.
      + rewrite list_lookup_insert_ne in Hv by done. rewrite (Hnew_k k Hki).
        eapply (Forall2_lookup_lr _ _ _ k k v Hold); [|done].
        apply lookup_seq. split; [done|lia]. }
  assert (Hlen : length r = length static).
  { apply length_mapM in Hold. by rewrite length_seq in Hold. }
  eexists _, depot, tpre, tpost.
  split; [rewrite reward_paths, decide_False by done; exact Hnew|].
  split; [done|]. split; [done|]. split; [done|]. cbv zeta. split_and!.
  - rewrite Hri. f_equal. unfold path_length. f_equal.
    rewrite <-(assoc_L (++) tpre).
    exact (legs_app (depot :: tpre) p (tpost ++ [depot])).
  - apply list_lookup_insert_eq. rewrite Hlen. by eapply lookup_lt_Some.
  - intros k Hk. by apply list_lookup_insert_ne.
Qed.

(** X13: a tour that only visits the depot, the empty tour among them,
    has the reward 0 when the coordinates of the depot are finite. *)
Theorem depot_only_tour_is_free static tour_indices r (i : nat) inst k depot :
  reward tsum static tour_indices = Some r →
  static !! i = Some inst →
  tour_indices !! i = Some (replicate k 0) →
  point_at inst 0 = Some depot → Forall finite depot →
  r !! i = Some F32.zero.
Proof.
  intros Hr Hinst Hidx Hdepot Hfin.
  destruct (reward_lookup _ _ _ _ _ Hr Hinst) as (idx & tour & depot' & Hidx' & Htour & Hd & ->).
  assert (idx = replicate k 0) as -> by congruence.
  assert (depot' = depot) as -> by congruence.
  assert (tour = replicate k depot) as ->.
  { assert (Ht : mapM (point_at inst) (replicate k 0) = Some (replicate k depot)).
    { apply mapM_Some_2. clear Htour Hidx Hidx'.
      induction k as [|k IH]; simpl; by constructor. }
    congruence. }
  f_equal. unfold path_length.
  assert (Hlegs : ∀ m, legs tsum (depot :: replicate m depot ++ [depot])
                       = replicate (S m) F32.zero).
  { induction m as [|m IH]; simpl.
    - by rewrite euclid_diag.
    - simpl in IH. rewrite euclid_diag by done. f_equal. exact IH. }
  change ([depot] ++ replicate k depot ++ [depot])
    with (depot :: replicate k depot ++ [depot]).
  rewrite (Hlegs k). apply (tsum_zeros tsum tsum_sums).
Qed.

(** X14: [reward] fails when an instance has no row of indices, or when
    a tour names a node outside [0, n). *)
Theorem reward_rejects_bad_indices static tour_indices (i : nat) inst (n : nat) :
  static !! i = Some inst → inst ≠ [] → Forall (λ row, length row = n) inst →
  (tour_indices !! i = None ∨
   ∃ idx j, tour_indices !! i = Some idx ∧ j ∈ idx ∧ ¬ (0 ≤ j < Z.of_nat n)) →
  reward tsum static tour_indices = None.
Proof.
  intros Hinst Hne Hrows Hbad. rewrite reward_paths.
  rewrite decide_False by (by intros ->).
  apply mapM_None_2, Exists_exists.
  exists i. split.
  { apply elem_of_seq. split; [lia|]. simpl. by eapply lookup_lt_Some. }
  simpl. rewrite Hinst. simpl. destruct Hbad as [->|(idx & j & -> & Hj & Hout)]; [done|].
  simpl. assert (Hpt : point_at inst j = None).
  { unfold point_at. apply mapM_None_2. destruct inst as [|row inst]; [done|].
    apply Exists_cons_hd. apply Forall_cons in Hrows as [Hrow _].
    unfold at_index. destruct (Z.ltb_spec j 0); [done|].
    apply lookup_ge_None. lia. }
  assert (Htour : mapM (point_at inst) idx = None).
  { apply mapM_None_2, Exists_exists. by exists j. }
  by rewrite Htour.
Qed.

End RewardFacts.

(** ** More on the generated data *)

Section GeneratedData.
Variable manual_seed : Z → generator.

Lemma randint_range g low high p : low < high → low ≤ randint g low high p < high.
Proof.
  intros H. unfold randint.
  pose proof (Z.mod_pos_bound (integer g p) (high - low)). lia.
Qed.

Lemma tensor3_lookup {A} (n k m : nat) (f : nat → A) t :
  t ∈ tensor3 n k m f →
  ∃ i, t = (λ j, (λ l, f ((i * k + j) * m + l)%nat) <$> seq 0 m) <$> seq 0 k.
Proof. unfold tensor3. intros (i & -> & _)%list_elem_of_fmap. by exists i. Qed.

Lemma init_contents num_samples input_size max_load max_demand seed ds :
  init manual_seed num_samples input_size max_load max_demand seed = inr ds →
  (0 ≤ num_samples ∧ len ds = num_samples) ∧
  length (static ds) = Z.to_nat num_samples ∧
  length (dynamic ds) = Z.to_nat num_samples ∧
  Forall (λ inst, ∃ xs ys, inst = [F32.zero :: xs; F32.zero :: ys] ∧
                    length xs = Z.to_nat input_size ∧
                    length ys = Z.to_nat input_size) (static ds) ∧
  Forall (λ x, feat0 x = replicate (Z.to_nat (input_size + 1)) F32.one ∧
               ∃ ks, feat1 x = F32.zero :: (normalized max_load <$> ks) ∧
                     length ks = Z.to_nat input_size ∧
                     Forall (λ k, 1 ≤ k ≤ max_demand) ks) (dynamic ds).
Proof.
  unfold init. intros Hinit. repeat case_match; simplify_eq/=.
  apply orb_false_iff in H0 as [Hns His].
  assert (Hm : Z.to_nat (input_size + 1) = S (Z.to_nat input_size)) by lia.
  split_and!.
  - lia.
  - done.
  - unfold tensor3. by rewrite !length_fmap, length_seq.
  - unfold tensor3. rewrite length_zip_with, !length_fmap, !length_seq. lia.
  - apply Forall_fmap, Forall_forall. intros t (i & ->)%tensor3_lookup. simpl.
    rewrite Hm. simpl. eexists _, _. split; [done|].
    rewrite !drop_0, !length_map, !length_seq. done.
  - apply Forall_forall. intros x (l & d & -> & Hl & Hd)%elem_of_zip_with. simpl.
    apply tensor3_lookup in Hl as (i & ->).
    apply list_elem_of_fmap in Hd as (d' & -> & Hd').
    apply list_elem_of_fmap in Hd' as (d'' & -> & Hd'').
    apply tensor3_lookup in Hd'' as (i' & ->). simpl. rewrite !app_nil_r. split.
    + rewrite (const_fmap _ _ F32.one); [by rewrite length_seq|done].
    + rewrite Hm. simpl.
      exists ((λ l, randint (manual_seed seed) 1 (max_demand + 1)
                      ((i' * 1 + 0) * S (Z.to_nat input_size) + l)%nat)
              <$> seq 1 (Z.to_nat input_size)).
      split_and!.
      * by rewrite app_nil_r.
      * by rewrite length_fmap, length_seq.
      * apply Forall_fmap, Forall_true. intros p. simpl.
        pose proof (randint_range (manual_seed seed) 1 (max_demand + 1)
                      ((i' * 1 + 0) * S (Z.to_nat input_size) + p)%nat). lia.
Qed.


Lemma tensor_index_in_range {A} (t : list A) idx x :
  0 ≤ idx → t !! Z.to_nat idx = Some x → tensor_index t idx = Some x.
Proof.
  intros Hidx Hx. unfold tensor_index. apply lookup_lt_Some in Hx as Hlt.
  destruct (Z.leb_spec 0 idx), (Z.ltb_spec idx (Z.of_nat (length t))); simpl;
    first [done|lia].
Qed.

Lemma tensor_index_outside {A} (t : list A) idx :
  idx < - Z.of_nat (length t) ∨ Z.of_nat (length t) ≤ idx → tensor_index t idx = None.
Proof.
  intros Hout. unfold tensor_index.
  destruct (Z.leb_spec 0 idx), (Z.ltb_spec idx (Z.of_nat (length t))),
    (Z.leb_spec (- Z.of_nat (length t)) idx), (Z.ltb_spec idx 0); simpl;
    first [done|lia].
Qed.

Lemma tensor_index_negative {A} (t : list A) idx :
  - Z.of_nat (length t) ≤ idx < 0 →
  tensor_index t idx = tensor_index t (idx + Z.of_nat (length t)).
Proof.
  intros Hneg. unfold tensor_index.
  destruct (Z.leb_spec 0 idx), (Z.ltb_spec idx (Z.of_nat (length t))),
    (Z.leb_spec (- Z.of_nat (length t)) idx), (Z.ltb_spec idx 0),
    (Z.leb_spec 0 (idx + Z.of_nat (length t))),
    (Z.ltb_spec (idx + Z.of_nat (length t)) (Z.of_nat (length t))); simpl;
    first [done|lia].
Qed.

(** X16: on a generated data set, [__len__] is the number of stored
    samples; [__getitem__] returns sample [idx] for [0 <= idx < len], with
    the depot at the origin as start location; it returns the sample
    [idx + len] for [-len <= idx < 0], and fails outside [-len, len). *)
Theorem getitem_samples num_samples input_size max_load max_demand seed ds idx :
  init manual_seed num_samples input_size max_load max_demand seed = inr ds →
  len ds = Z.of_nat (length (static ds)) ∧
  len ds = Z.of_nat (length (dynamic ds)) ∧
  (0 ≤ idx < len ds →
   ∃ s d, static ds !! Z.to_nat idx = Some s ∧ dynamic ds !! Z.to_nat idx = Some d ∧
          getitem ds idx = Some (s, d, [[F32.zero]; [F32.zero]])) ∧
  (- len ds ≤ idx < 0 → getitem ds idx = getitem ds (idx + len ds)) ∧
  (idx < - len ds ∨ len ds ≤ idx → getitem ds idx = None).
Proof.
  intros Hinit.
  destruct (init_contents _ _ _ _ _ _ Hinit) as ((Hns & Hl) & Hs & Hd & Hinst & _).
  assert (Hlen_s : len ds = Z.of_nat (length (static ds))) by (rewrite Hl, Hs; lia).
  assert (Hlen_d : len ds = Z.of_nat (length (dynamic ds))) by (rewrite Hl, Hd; lia).
  split; [done|]. split; [done|]. split_and!.
  - intros Hidx.
    destruct (lookup_lt_is_Some_2 (static ds) (Z.to_nat idx)) as [s Hsi]; [lia|].
    destruct (lookup_lt_is_Some_2 (dynamic ds) (Z.to_nat idx)) as [d Hdi]; [lia|].
    exists s, d. split; [done|]. split; [done|]. unfold getitem.
    rewrite !(tensor_index_in_range _ _ _ (proj1 Hidx) Hsi).
    rewrite (tensor_index_in_range _ _ _ (proj1 Hidx) Hdi). simpl.
    rewrite Forall_forall in Hinst.
    destruct (Hinst s) as (xs & ys & -> & _); [by eapply list_elem_of_lookup_2|]. done.
  - intros Hidx. unfold getitem.
    rewrite (tensor_index_negative (static ds)) by lia.
    rewrite (tensor_index_negative (dynamic ds)) by lia.
    by rewrite <-Hlen_s, <-Hlen_d.
  - intros Hidx. unfold getitem. by rewrite tensor_index_outside by lia.
Qed.

End GeneratedData.

(** ** The sub-tours drawn by [render] *)

Section RenderFacts.

Lemma subtour_lines_rec (x y : list f32) (w : list nat) (j0 : nat) :
  omap (λ j : nat,
          low ← w !! j;
          high ← w !! S j;
          if (low + 1 =? high)%nat then None
          else Some ((j0 + j)%nat, slice x low (high + 1), slice y low (high + 1)))
       (seq 0 (length w - 1))
  = lines_of x y j0 w.
Proof.
  revert j0. induction w as [|low [|high rest] IH]; intros j0; [done..|].
  replace (length (low :: high :: rest) - 1)%nat with (S (length (high :: rest) - 1))
    by (simpl; lia).
  rewrite <-cons_seq, <-fmap_S_seq. cbn [omap list_omap]. simpl lookup at 1 2.
  change (lines_of x y j0 (low :: high :: rest))
    with ((if (low + 1 =? high)%nat then []
           else [(j0, slice x low (high + 1), slice y low (high + 1))])
          ++ lines_of x y (S j0) (high :: rest)).
  rewrite <-(IH (S j0)). rewrite Nat.add_0_r.
  assert (Htail : omap (λ j : nat,
            low0 ← (low :: high :: rest) !! j;
            high0 ← (low :: high :: rest) !! S j;
            if (low0 + 1 =? high0)%nat then None
            else Some ((j0 + j)%nat, slice x low0 (high0 + 1), slice y low0 (high0 + 1)))
          (S <$> seq 0 (length (high :: rest) - 1))
        = omap (λ j : nat,
            low0 ← (high :: rest) !! j;
            high0 ← (high :: rest) !! S j;
            if (low0 + 1 =? high0)%nat then None
            else Some ((S j0 + j)%nat, slice x low0 (high0 + 1), slice y low0 (high0 + 1)))
          (seq 0 (length (high :: rest) - 1))).
  { generalize (seq 0 (length (high :: rest) - 1)). intros l'.
    induction l' as [|a l' IHl]; [done|]. cbn [fmap list_fmap omap list_omap].
    rewrite <-IHl. replace (j0 + S a)%nat with (S j0 + a)%nat by lia. done. }
  simpl in Htail |- *. rewrite Htail. by destruct (low + 1 =? high)%nat.
Qed.

Lemma subtour_lines_lines_of x y w : subtour_lines x y w = lines_of x y 0 w.
Proof. apply (subtour_lines_rec x y w 0). Qed.

Lemma slice_middle {A} (pre mid post : list A) :
  slice (pre ++ mid ++ post) (length pre) (length pre + length mid) = mid.
Proof.
  unfold slice. rewrite drop_app_length.
  replace (length pre + length mid - length pre)%nat with (length mid) by lia.
  by rewrite take_app_length.
Qed.

Lemma Forall2_slice {A B} (R : A → B → Prop) l k low high :
  Forall2 R l k → Forall2 R (slice l low high) (slice k low high).
Proof. intros H. unfold slice. by apply Forall2_take, Forall2_drop. Qed.

Lemma lines_of_sub_tours (row0 row1 x y : list f32) (F : list Z) :
  Forall2 (λ c v, at_index row0 c = Some v) F x →
  Forall2 (λ c v, at_index row1 c = Some v) F y →
  ∀ l pre acc j,
    F = pre ++ [0] ++ acc ++ l ++ [0] →
    Forall2 (draws row0 row1)
      (sub_tours_from j acc l)
      (lines_of x y j
         (length pre :: nonzero_from (length pre + 1 + length acc)
                          ((λ c, c =? 0) <$> (l ++ [0])))).
Proof.
  intros Hx Hy.
  assert (Hfirst : ∀ pre acc rest j k,
    F = pre ++ [0] ++ acc ++ [0] ++ rest → k = (length pre + 1 + length acc)%nat →
    Forall2 (draws row0 row1)
      (if decide (acc = []) then [] else [(j, acc)])
      (if (length pre + 1 =? k)%nat then []
       else [(j, slice x (length pre) (k + 1), slice y (length pre) (k + 1))])).
  { intros pre acc rest j k HF ->.
    destruct acc as [|a acc].
    - simpl. rewrite Nat.add_0_r, Nat.eqb_refl. constructor.
    - destruct (Nat.eqb_spec (length pre + 1) (length pre + 1 + length (a :: acc)));
        [simpl in *; lia|].
      rewrite decide_False by done. constructor; [|constructor].
      assert (Hs : slice F (length pre) (length pre + 1 + length (a :: acc) + 1)
                   = [0] ++ (a :: acc) ++ [0]).
      { rewrite HF.
        replace (pre ++ [0] ++ (a :: acc) ++ [0] ++ rest)
          with (pre ++ ([0] ++ (a :: acc) ++ [0]) ++ rest)
          by (by rewrite <-!(assoc_L (++))).
        replace (length pre + 1 + length (a :: acc) + 1)%nat
          with (length pre + length ([0%Z] ++ (a :: acc) ++ [0%Z]))%nat
          by (rewrite !length_app; simpl; lia).
        apply slice_middle. }
      split; [done|]. simpl fst. simpl snd. rewrite <-Hs.
      split; by apply Forall2_slice. }
  induction l as [|c l IH]; intros pre acc j HF.
  - simpl. rewrite app_nil_r.
    apply (Hfirst pre acc [] j); [by rewrite HF|done].
  - simpl. destruct (Z.eqb_spec c 0) as [->|Hc].
    + change (lines_of x y j (length pre :: (length pre + 1 + length acc)%nat :: ?r))
        with ((if (length pre + 1 =? length pre + 1 + length acc)%nat then []
               else [(j, slice x (length pre) (length pre + 1 + length acc + 1),
                         slice y (length pre) (length pre + 1 + length acc + 1))])
              ++ lines_of x y (S j) ((length pre + 1 + length acc)%nat :: r)).
      apply Forall2_app.
      * by apply (Hfirst pre acc (l ++ [0]) j).
      * specialize (IH (pre ++ [0] ++ acc) [] (S j)).
        rewrite !length_app in IH. simpl in IH.
        replace (length pre + S (length acc) + 1 + 0)%nat
          with (S (length pre + 1 + length acc)) in IH by lia.
        replace (length pre + S (length acc))%nat
          with (length pre + 1 + length acc)%nat in IH by lia.
        apply IH. rewrite HF. by rewrite <-!(assoc_L (++)).
    + specialize (IH pre (acc ++ [c]) j).
      rewrite length_app in IH. simpl in IH.
      replace (length pre + 1 + (length acc + 1))%nat
        with (S (length pre + 1 + length acc)) in IH by lia.
      apply IH. rewrite HF. by rewrite <-!(assoc_L (++)).
Qed.

Lemma sub_tours_from_customers j acc l :
  concat (snd <$> sub_tours_from j acc l) = acc ++ filter (λ c, c ≠ 0) l.
Proof.
  revert j acc. induction l as [|c l IH]; intros j acc; simpl.
  - destruct (decide (acc = [])) as [->|]; simpl; by rewrite ?app_nil_r.
  - destruct (Z.eqb_spec c 0) as [->|Hc].
    + rewrite fmap_app, concat_app, IH. rewrite filter_cons_False by (intros ?; done).
      destruct (decide (acc = [])) as [->|]; simpl; by rewrite ?app_nil_r.
    + rewrite IH, filter_cons_True by done. by rewrite <-(assoc_L (++)).
Qed.

Lemma sub_tours_from_runs j acc l :
  Forall (λ c, c ≠ 0) acc →
  Forall (λ st : nat * list Z, st.2 ≠ [] ∧ Forall (λ c, c ≠ 0) st.2 ∧ (j ≤ st.1)%nat)
         (sub_tours_from j acc l).
Proof.
  revert j acc. induction l as [|c l IH]; intros j acc Hacc; simpl.
  - destruct (decide (acc = [])); repeat constructor; done.
  - destruct (Z.eqb_spec c 0) as [->|Hc].
    + apply Forall_app. split.
      * destruct (decide (acc = [])); repeat constructor; done.
      * eapply Forall_impl; [apply IH; constructor|].
        intros st (? & ? & ?). split_and!; [done..|lia].
    + apply IH. apply Forall_app. split; [done|by repeat constructor].
Qed.

Lemma sqrt_at_least_3 (n : nat) : (3 <=? Z.sqrt (Z.of_nat n)) = bool_decide (9 ≤ n)%nat.
Proof.
  pose proof (Z.sqrt_le_square (Z.of_nat n) 3 ltac:(lia) ltac:(lia)) as H.
  destruct (Z.leb_spec 3 (Z.sqrt (Z.of_nat n))); case_bool_decide; lia.
Qed.

Lemma at_index_is_Some {A} (row : list A) c :
  0 ≤ c < Z.of_nat (length row) → is_Some (at_index row c).
Proof.
  intros Hc. unfold at_index. destruct (Z.ltb_spec c 0); [lia|].
  apply lookup_lt_is_Some. lia.
Qed.

Lemma gather_row_Forall2 {A} (row : list A) idx data :
  mapM (at_index row) idx = Some data →
  Forall2 (λ c v, at_index row c = Some v) idx data.
Proof. intros H. by apply mapM_Some_1. Qed.

(** What one turn of the loop over the axes computes. *)
Lemma render_panel static tour_indices panels (i : nat) p :
  render static tour_indices = Some panels → panels !! i = Some p →
  ∃ idx inst row0 row1 depot_x depot_y data0 data1,
    tour_indices !! i = Some idx ∧ static !! i = Some inst ∧
    inst !! 0%nat = Some row0 ∧ inst !! 1%nat = Some row1 ∧
    row0 !! 0%nat = Some depot_x ∧ row1 !! 0%nat = Some depot_y ∧
    mapM (at_index row0) idx = Some data0 ∧ mapM (at_index row1) idx = Some data1 ∧
    p = mkPanel
          (subtour_lines ([depot_x] ++ data0 ++ [depot_x]) ([depot_y] ++ data1 ++ [depot_y])
             (nonzero ((λ c, c =? 0) <$> [0] ++ idx ++ [0])))
          ([depot_x] ++ data0 ++ [depot_x], [depot_y] ++ data1 ++ [depot_y])
          (depot_x, depot_y).
Proof.
  unfold render. intros Hr Hp.
  apply mapM_Some_1 in Hr.
  destruct (Forall2_lookup_r _ _ _ _ _ Hr Hp) as (i' & Hi' & Hstep).
  apply lookup_seq in Hi' as [-> _]. simpl in Hstep.
  destruct (tour_indices !! i) as [idx|]; simpl in Hstep; [|done].
  destruct (static !! i) as [inst|]; simpl in Hstep; [|done].
  destruct (mapM (λ row, mapM (at_index row) idx) inst) as [data|] eqn:Hdata;
    simpl in Hstep; [|done].
  destruct (mapM (λ row : list f32, row !! 0%nat) inst) as [start|] eqn:Hstart;
    simpl in Hstep; [|done].
  destruct (start !! 0%nat) as [start0|] eqn:Hs0; simpl in Hstep; [|done].
  destruct (data !! 0%nat) as [data0|] eqn:Hd0; simpl in Hstep; [|done].
  destruct (start !! 1%nat) as [start1|] eqn:Hs1; simpl in Hstep; [|done].
  destruct (data !! 1%nat) as [data1|] eqn:Hd1; simpl in Hstep; [|done].
  apply mapM_Some_1 in Hdata. apply mapM_Some_1 in Hstart.
  destruct (Forall2_lookup_r _ _ _ _ _ Hdata Hd0) as (row0 & Hrow0 & Hg0).
  destruct (Forall2_lookup_r _ _ _ _ _ Hdata Hd1) as (row1 & Hrow1 & Hg1).
  destruct (Forall2_lookup_r _ _ _ _ _ Hstart Hs0) as (row0' & Hrow0' & Hst0).
  destruct (Forall2_lookup_r _ _ _ _ _ Hstart Hs1) as (row1' & Hrow1' & Hst1).
  assert (row0' = row0) as -> by congruence.
  assert (row1' = row1) as -> by congruence.
  exists idx, inst, row0, row1, start0, start1, data0, data1.
  split_and!; try done. by injection Hstep as <-.
Qed.

Lemma extended_tour_coordinates (row : list f32) idx depot data :
  row !! 0%nat = Some depot → mapM (at_index row) idx = Some data →
  Forall2 (λ c v, at_index row c = Some v) ([0] ++ idx ++ [0]) ([depot] ++ data ++ [depot]).
Proof.
  intros Hdepot Hdata.
  apply Forall2_app; [by constructor|].
  apply Forall2_app; [by apply gather_row_Forall2|by constructor].
Qed.

(** X17. When [render] draws, there is at least one tour, and the figure
    has nine panels if the batch has nine tours or more and one panel
    otherwise; panel [i] is drawn from tour [i]: its points are the depot,
    the nodes of the tour in order and the depot again, and its star is the
    depot. *)
Theorem render_panels static tour_indices panels :
  render static tour_indices = Some panels →
  tour_indices ≠ [] ∧
  length panels = (if bool_decide (9 ≤ length tour_indices)%nat then 9 else 1)%nat ∧
  ∀ (i : nat) p, panels !! i = Some p →
    ∃ idx row0 row1,
      tour_indices !! i = Some idx ∧
      (inst ← static !! i; inst !! 0%nat) = Some row0 ∧
      (inst ← static !! i; inst !! 1%nat) = Some row1 ∧
      Forall2 (λ c v, at_index row0 c = Some v) ([0] ++ idx ++ [0]) (points p).1 ∧
      Forall2 (λ c v, at_index row1 c = Some v) ([0] ++ idx ++ [0]) (points p).2 ∧
      at_index row0 0 = Some (star p).1 ∧ at_index row1 0 = Some (star p).2.
Proof.
  intros Hr.
  assert (Hlen : length panels
                 = (if bool_decide (9 ≤ length tour_indices)%nat then 9 else 1)%nat).
  { unfold render in Hr. apply length_mapM in Hr. rewrite length_seq in Hr.
    rewrite sqrt_at_least_3 in Hr. rewrite <-Hr. by case_bool_decide. }
  split_and!; [|done|].
  - destruct panels as [|p panels]; [by case_bool_decide|].
    destruct (render_panel static tour_indices (p :: panels) 0 p Hr eq_refl)
      as (idx & _ & _ & _ & _ & _ & _ & _ & Hidx & _).
    by intros ->.
  - intros i p Hp.
    destruct (render_panel static tour_indices panels i p Hr Hp)
      as (idx & inst & row0 & row1 & dx & dy & data0 & data1
          & Hidx & Hinst & Hrow0 & Hrow1 & Hdx & Hdy & Hd0 & Hd1 & ->).
    exists idx, row0, row1. rewrite Hinst. simpl.
    split_and!; try done.
    + by apply extended_tour_coordinates.
    + by apply extended_tour_coordinates.
Qed.

(** X18. The lines of a panel are the sub-tours of its tour: cutting the
    tour at every visit of the depot gives runs of customers, the runs
    that are not empty are drawn, one line each, from the depot through the
    customers of the run and back to the depot, and the label of a line is
    the number of depot visits before its run.  The runs drawn hold every
    customer visit of the tour, in order. *)
Theorem render_lines_are_sub_tours static tour_indices panels (i : nat) p idx inst row0 row1 :
  render static tour_indices = Some panels → panels !! i = Some p →
  tour_indices !! i = Some idx → static !! i = Some inst →
  inst !! 0%nat = Some row0 → inst !! 1%nat = Some row1 →
  Forall2 (draws row0 row1) (sub_tours idx) (lines p) ∧
  concat (snd <$> sub_tours idx) = filter (λ c, c ≠ 0) idx ∧
  Forall (λ st : nat * list Z, st.2 ≠ [] ∧ Forall (λ c, c ≠ 0) st.2) (sub_tours idx).
Proof.
  intros Hr Hp Hidx Hinst Hrow0 Hrow1.
  destruct (render_panel static tour_indices panels i p Hr Hp)
    as (idx' & inst' & row0' & row1' & dx & dy & data0 & data1
        & Hidx' & Hinst' & Hrow0' & Hrow1' & Hdx & Hdy & Hd0 & Hd1 & ->).
  assert (idx' = idx) as -> by congruence.
  assert (inst' = inst) as -> by congruence.
  assert (row0' = row0) as -> by congruence.
  assert (row1' = row1) as -> by congruence.
  split_and!.
  - simpl lines. rewrite subtour_lines_lines_of.
    pose proof (lines_of_sub_tours row0 row1 _ _ ([0] ++ idx ++ [0])
                  (extended_tour_coordinates row0 idx dx data0 Hdx Hd0)
                  (extended_tour_coordinates row1 idx dy data1 Hdy Hd1)
                  idx [] [] 0%nat eq_refl) as H.
    apply H.
  - apply (sub_tours_from_customers 0 [] idx).
  - eapply Forall_impl; [apply (sub_tours_from_runs 0 [] idx); constructor|].
    by intros st (? & ? & _).
Qed.

(** X19. [render] draws every batch that has a tour: with as many
    instances as tours, two rows of coordinates of the same length for each
    instance and every index of a tour a node of its instance, it returns
    its panels. *)
Theorem render_succeeds static tour_indices (seq_len : nat) :
  tour_indices ≠ [] → length static = length tour_indices →
  Forall (λ inst : list (list f32),
            (2 ≤ length inst)%nat ∧ Forall (λ row, length row = seq_len) inst) static →
  (0 < seq_len)%nat → Forall (in_range seq_len) tour_indices →
  is_Some (render static tour_indices).
Proof.
  intros Hne Hlen Hshape Hpos Hrange. unfold render.
  apply mapM_is_Some_2. apply Forall_forall. intros i Hi.
  apply elem_of_seq in Hi. rewrite sqrt_at_least_3 in Hi. simpl.
  assert (Hi' : (i < length tour_indices)%nat).
  { destruct tour_indices; [done|]. case_bool_decide; simpl in *; lia. }
  destruct (lookup_lt_is_Some_2 tour_indices i Hi') as [idx Hidx].
  destruct (lookup_lt_is_Some_2 static i ltac:(lia)) as [inst Hinst].
  rewrite Hidx, Hinst. simpl.
  pose proof (proj1 (Forall_lookup _ _) Hshape i inst Hinst) as [Hrows Hrowlen].
  pose proof (proj1 (Forall_lookup _ _) Hrange i idx Hidx) as Hin.
  assert (Hdata : is_Some (mapM (λ row, mapM (at_index row) idx) inst)).
  { apply mapM_is_Some_2. eapply Forall_impl; [exact Hrowlen|].
    intros row Hrow. simpl. apply mapM_is_Some_2.
    eapply Forall_impl; [exact Hin|]. intros c Hc. simpl.
    apply at_index_is_Some. simpl in Hrow, Hc. lia. }
  destruct Hdata as [data Hdata]. rewrite Hdata. simpl.
  assert (Hstart : is_Some (mapM (λ row : list f32, row !! 0%nat) inst)).
  { apply mapM_is_Some_2. eapply Forall_impl; [exact Hrowlen|].
    intros row Hrow. simpl in Hrow |- *. apply lookup_lt_is_Some. lia. }
  destruct Hstart as [start Hstart]. rewrite Hstart. simpl.
  apply length_mapM in Hdata. apply length_mapM in Hstart.
  destruct (lookup_lt_is_Some_2 start 0 ltac:(lia)) as [s0 ->].
  destruct (lookup_lt_is_Some_2 data 0 ltac:(lia)) as [d0 ->].
  destruct (lookup_lt_is_Some_2 start 1 ltac:(lia)) as [s1 ->].
  destruct (lookup_lt_is_Some_2 data 1 ltac:(lia)) as [d1 ->].
  by simpl.
Qed.

End RenderFacts.

(** ** The further statements at concrete inputs *)

Lemma mask_shape_and_served_customers_witness :
  ∃ m r, update_mask 20 [served_instance; fresh_instance] [2; 2] = Some m ∧
    length m = length [served_instance; fresh_instance] ∧ m !! 0%nat = Some r ∧
    length r = length (feat1 served_instance) ∧
    Forall (λ b, b = 0 ∨ b = 1) r ∧
    ∀ j : nat, (0 < j)%nat → (to_units 20 <$> feat1 served_instance) !! j = Some 0 →
      r !! j = Some 0.
Proof.
  apply (mask_shape_and_served_customers 20 [served_instance; fresh_instance] [2; 2] 0
           served_instance).
  - split; [reflexivity|]. repeat constructor; discriminate.
  - reflexivity.
Defined.

Lemma default_legality_witness :
  ∃ m r, update_mask 20 [fresh_instance; served_instance] [0; 0] = Some m ∧
    m !! 0%nat = Some r ∧
    (head r = Some 1 ↔ 0 ≠ 0) ∧ (head r = Some 0 ↔ 0 = 0) ∧
    ∀ (j : nat) d, (0 < j)%nat → (to_units 20 <$> feat1 fresh_instance) !! j = Some d →
      (r !! j = Some 1 ↔ d ≠ 0) ∧ (r !! j = Some 0 ↔ d = 0).
Proof.
  apply (default_legality 20 [fresh_instance; served_instance] [0; 0] 0 fresh_instance 0 20).
  - split; [reflexivity|]. repeat constructor; discriminate.
  - reflexivity.
  - reflexivity.
  - vm_compute. reflexivity.
  - lia.
  - replace (customer_units 20 fresh_instance) with [9; 9; 9] by (vm_compute; reflexivity).
    simpl. lia.
Defined.

Lemma mask_and_index_vector_witness :
  update_mask 20 [served_instance] []
  = Some ((λ x, replicate (length (feat1 x)) 0) <$> [served_instance]) ∧
  update_mask 20 [fresh_instance] [1; 1] = None.
Proof.
  split.
  - apply (proj1 (mask_and_index_vector 20 [served_instance] [])).
    constructor; [|constructor]. unfold finished.
    replace (customer_units 20 served_instance) with [0; 0; 0] by (vm_compute; reflexivity).
    repeat constructor.
  - apply (proj2 (mask_and_index_vector 20 [fresh_instance] [1; 1])).
    + intros H. apply Forall_cons_1 in H as [H _]. unfold finished in H.
      replace (customer_units 20 fresh_instance) with [9; 9; 9] in H
        by (vm_compute; reflexivity).
      apply Forall_cons_1 in H as [H _]. discriminate H.
    + discriminate.
    + simpl. lia.
Defined.

Lemma mask_reads_first_load_slot_witness :
  ∃ m, update_mask 20 [fresh_instance] [3] = Some m ∧
       update_mask 20 [mkFeat [normalized 20 20] (feat1 fresh_instance)] [3] = Some m.
Proof.
  apply (mask_reads_first_load_slot 20 [fresh_instance]
           [mkFeat [normalized 20 20] (feat1 fresh_instance)] [3]).
  - split; [reflexivity|]. repeat constructor; discriminate.
  - constructor; [|constructor].
    split; [reflexivity|]. split; [reflexivity|]. split; discriminate.
Defined.

Lemma depot_visit_refills_witness :
  (∃ dyn', update_dynamic 20 [served_instance; fresh_instance] [1; 0] = Some dyn' ∧
     dyn' !! 1%nat
     = Some (mkFeat (replicate 4 F32.one) (<[0%nat := F32.zero]> (feat1 fresh_instance)))) ∧
  (∃ dyn', update_dynamic 20 [fresh_instance] [0] = Some dyn' ∧
     dyn' !! 0%nat = Some (mkFeat (replicate 4 F32.one) (replicate 4 F32.zero))).
Proof.
  split.
  - apply (depot_visit_refills 20 4 ltac:(lia) [served_instance; fresh_instance] [1; 0] 1
             fresh_instance).
    + repeat constructor.
    + reflexivity.
    + repeat constructor; lia.
    + reflexivity.
    + reflexivity.
  - apply (depot_visit_refills 20 4 ltac:(lia) [fresh_instance] [0] 0 fresh_instance).
    + repeat constructor.
    + reflexivity.
    + repeat constructor; lia.
    + reflexivity.
    + reflexivity.
Defined.

Lemma customer_visit_frame_witness :
  ∃ dyn' y l d d0,
    update_dynamic 20 [fresh_instance; served_instance] [1; 0] = Some dyn' ∧
    length dyn' = length [fresh_instance; served_instance] ∧ dyn' !! 0%nat = Some y ∧
    feat0 fresh_instance !! Z.to_nat 1 = Some l ∧
    feat1 fresh_instance !! Z.to_nat 1 = Some d ∧
    feat1 fresh_instance !! 0%nat = Some d0 ∧
    length (feat0 y) = 4%nat ∧ length (feat1 y) = 4%nat ∧
    feat1 y !! 0%nat = Some (marker_of d0 (new_load_of 20 l d)) ∧
    ∀ j : nat, j ≠ 0%nat → j ≠ Z.to_nat 1 → feat1 y !! j = feat1 fresh_instance !! j.
Proof.
  apply (customer_visit_frame 20 4 ltac:(lia) [fresh_instance; served_instance] [1; 0] 0
           fresh_instance 1).
  - repeat constructor.
  - reflexivity.
  - repeat constructor; lia.
  - reflexivity.
  - reflexivity.
  - lia.
Defined.

Lemma all_visit_batch_witness :
  ∃ dyn' y l d,
    update_dynamic 20 [fresh_instance; fresh_instance] [1; 2] = Some dyn' ∧
    dyn' !! 1%nat = Some y ∧
    feat0 fresh_instance !! Z.to_nat 2 = Some l ∧
    feat1 fresh_instance !! Z.to_nat 2 = Some d ∧
    feat0 y = replicate 4 (new_load_of 20 l d) ∧
    feat1 y !! Z.to_nat 2 = Some (new_demand_of 20 l d).
Proof.
  apply (all_visit_batch 20 4 ltac:(lia) [fresh_instance; fresh_instance] [1; 2] 1
           fresh_instance 2).
  - repeat constructor.
  - reflexivity.
  - repeat constructor; lia.
  - repeat constructor; lia.
  - reflexivity.
  - reflexivity.
Defined.

Lemma transition_rejects_bad_indices_witness :
  update_dynamic 20 [fresh_instance] [4] = None.
Proof.
  apply (transition_rejects_bad_indices 20 4 ltac:(lia) [fresh_instance] [4]).
  - repeat constructor.
  - reflexivity.
  - intros H. apply Forall_cons_1 in H as [H _]. lia.
Defined.

Lemma run_never_fails_witness :
  ∃ dyn', apply_choices 20 [fresh_instance; served_instance] [[1; 0]; [2; 0]] = Some dyn' ∧
    length dyn' = length [fresh_instance; served_instance] ∧ has_shape 4 dyn' ∧
    ([[1; 0]; [2; 0]] ≠ [] → Forall (uniform_loads 4) dyn').
Proof.
  apply (run_never_fails 20 4 ltac:(lia) [fresh_instance; served_instance]
           [[1; 0]; [2; 0]]).
  - repeat constructor.
  - repeat constructor; lia.
Defined.

Lemma depot_return_idempotent_witness :
  update_dynamic 20
    [mkFeat (replicate 4 F32.one) (<[0%nat := F32.zero]> (feat1 fresh_instance));
     mkFeat (replicate 4 F32.one) (<[0%nat := F32.zero]> (feat1 served_instance))]
    (replicate (length [fresh_instance; served_instance]) 0)
  = Some [mkFeat (replicate 4 F32.one) (<[0%nat := F32.zero]> (feat1 fresh_instance));
          mkFeat (replicate 4 F32.one) (<[0%nat := F32.zero]> (feat1 served_instance))] ∧
  update_dynamic 20 [mkFeat (replicate 4 F32.one) (replicate 4 F32.zero)]
    (replicate (length [fresh_instance]) 0)
  = Some [mkFeat (replicate 4 F32.one) (replicate 4 F32.zero)].
Proof.
  split.
  - apply (depot_return_idempotent 20 4 ltac:(lia) [fresh_instance; served_instance]).
    + repeat constructor.
    + vm_compute. reflexivity.
  - apply (depot_return_idempotent 20 4 ltac:(lia) [fresh_instance]).
    + repeat constructor.
    + vm_compute. reflexivity.
Defined.

Lemma reward_never_negative_witness :
  reward sum_left_to_right [one_customer] [[1]] = Some [F32.of_Z 2] ∧
  length [F32.of_Z 2] = length [one_customer] ∧ Forall sign_clear [F32.of_Z 2].
Proof.
  assert (Hr : reward sum_left_to_right [one_customer] [[1]] = Some [F32.of_Z 2])
    by (vm_compute; reflexivity).
  split; [exact Hr|].
  apply (reward_never_negative sum_left_to_right sum_left_to_right_summation
           [one_customer] [[1]] [F32.of_Z 2] Hr).
Defined.

Lemma repeated_visit_adds_zero_leg_witness :
  ∃ r r' depot tpre tpost,
    reward sum_left_to_right [one_customer] [[] ++ 1 :: []] = Some r ∧
    reward sum_left_to_right [one_customer] (<[0%nat := [] ++ 1 :: 1 :: []]> [[1]])
    = Some r' ∧
    point_at one_customer 0 = Some depot ∧
    mapM (point_at one_customer) [] = Some tpre ∧
    mapM (point_at one_customer) [] = Some tpost ∧
    let before := legs sum_left_to_right
                    (depot :: tpre ++ [[normalized 5 3; normalized 5 4]]) in
    let after := legs sum_left_to_right
                   ([normalized 5 3; normalized 5 4] :: tpost ++ [depot]) in
    r !! 0%nat = Some (sum_left_to_right (before ++ after)) ∧
    r' !! 0%nat = Some (sum_left_to_right (before ++ F32.zero :: after)) ∧
    ∀ k : nat, k ≠ 0%nat → r' !! k = r !! k.
Proof.
  assert (Hr : reward sum_left_to_right [one_customer] [[1]] = Some [F32.of_Z 2])
    by (vm_compute; reflexivity).
  destruct (repeated_visit_adds_zero_leg sum_left_to_right sum_left_to_right_summation
              [one_customer] [[1]] [F32.of_Z 2] 0 one_customer [] 1 []
              [normalized 5 3; normalized 5 4] Hr)
    as (r' & depot & tpre & tpost & H);
    [reflexivity|reflexivity|vm_compute; reflexivity|repeat constructor|].
  exists [F32.of_Z 2], r', depot, tpre, tpost. split; [exact Hr|]. exact H.
Defined.

Lemma depot_only_tour_is_free_witness :
  ∃ r, reward sum_left_to_right [one_customer] [[0; 0]] = Some r ∧
       r !! 0%nat = Some F32.zero.
Proof.
  assert (Hr : reward sum_left_to_right [one_customer] [[0; 0]] = Some [F32.zero])
    by (vm_compute; reflexivity).
  exists [F32.zero]. split; [exact Hr|].
  apply (depot_only_tour_is_free sum_left_to_right sum_left_to_right_summation
           [one_customer] [[0; 0]] [F32.zero] 0 one_customer 2 [F32.zero; F32.zero]).
  - exact Hr.
  - reflexivity.
  - reflexivity.
  - reflexivity.
  - repeat constructor.
Defined.

Lemma reward_rejects_bad_indices_witness :
  reward sum_left_to_right [one_customer] [[1; 2]] = None.
Proof.
  apply (reward_rejects_bad_indices sum_left_to_right [one_customer] [[1; 2]] 0
           one_customer 2).
  - reflexivity.
  - discriminate.
  - repeat constructor.
  - right. exists [1; 2], 2. split; [reflexivity|]. split.
    + apply list_elem_of_further, list_elem_of_here.
    + lia.
Defined.


Lemma getitem_samples_witness :
  ∃ ds, init (stream_generator (replicate 8 8)) 2 3 20 9 1234 = inr ds ∧
    len ds = Z.of_nat (length (static ds)) ∧
    len ds = Z.of_nat (length (dynamic ds)) ∧
    (0 ≤ -1 < len ds →
     ∃ s d, static ds !! Z.to_nat (-1) = Some s ∧ dynamic ds !! Z.to_nat (-1) = Some d ∧
            getitem ds (-1) = Some (s, d, [[F32.zero]; [F32.zero]])) ∧
    (- len ds ≤ -1 < 0 → getitem ds (-1) = getitem ds (-1 + len ds)) ∧
    (-1 < - len ds ∨ len ds ≤ -1 → getitem ds (-1) = None).
Proof.
  destruct (init (stream_generator (replicate 8 8)) 2 3 20 9 1234) as [e|ds] eqn:Hds;
    [vm_compute in Hds; discriminate Hds|].
  exists ds. split; [reflexivity|].
  apply (getitem_samples (stream_generator (replicate 8 8)) 2 3 20 9 1234 ds (-1) Hds).
Defined.

Lemma render_panels_witness :
  ∃ panels, render [one_customer] [[1; 0; 1]] = Some panels ∧
    [[1; 0; 1]] ≠ [] ∧
    length panels = (if bool_decide (9 ≤ length [[1; 0; 1]])%nat then 9 else 1)%nat ∧
    ∀ (i : nat) p, panels !! i = Some p →
      ∃ idx row0 row1,
        [[1; 0; 1]] !! i = Some idx ∧
        (inst ← [one_customer] !! i; inst !! 0%nat) = Some row0 ∧
        (inst ← [one_customer] !! i; inst !! 1%nat) = Some row1 ∧
        Forall2 (λ c v, at_index row0 c = Some v) ([0] ++ idx ++ [0]) (points p).1 ∧
        Forall2 (λ c v, at_index row1 c = Some v) ([0] ++ idx ++ [0]) (points p).2 ∧
        at_index row0 0 = Some (star p).1 ∧ at_index row1 0 = Some (star p).2.
Proof.
  destruct (render [one_customer] [[1; 0; 1]]) as [panels|] eqn:Hr;
    [|vm_compute in Hr; discriminate Hr].
  exists panels. split; [reflexivity|].
  apply (render_panels [one_customer] [[1; 0; 1]] panels Hr).
Defined.

Lemma render_lines_are_sub_tours_witness :
  ∃ panels p, render [one_customer] [[1; 0; 1]] = Some panels ∧ panels !! 0%nat = Some p ∧
    Forall2 (draws [F32.zero; normalized 5 3] [F32.zero; normalized 5 4])
            (sub_tours [1; 0; 1]) (lines p) ∧
    concat (snd <$> sub_tours [1; 0; 1]) = filter (λ c, c ≠ 0) [1; 0; 1] ∧
    Forall (λ st : nat * list Z, st.2 ≠ [] ∧ Forall (λ c, c ≠ 0) st.2)
           (sub_tours [1; 0; 1]).
Proof.
  destruct (render [one_customer] [[1; 0; 1]]) as [panels|] eqn:Hr;
    [|vm_compute in Hr; discriminate Hr].
  destruct (panels !! 0%nat) as [p|] eqn:Hp.
  - exists panels, p. split; [reflexivity|]. split; [exact Hp|].
    apply (render_lines_are_sub_tours [one_customer] [[1; 0; 1]] panels 0 p [1; 0; 1]
             one_customer [F32.zero; normalized 5 3] [F32.zero; normalized 5 4] Hr Hp);
      reflexivity.
  - exfalso. vm_compute in Hr. injection Hr as <-. discriminate Hp.
Defined.

Lemma render_succeeds_witness :
  is_Some (render [one_customer] [[1; 0; 1]]).
Proof.
  apply (render_succeeds [one_customer] [[1; 0; 1]] 2).
  - discriminate.
  - reflexivity.
  - repeat constructor.
  - lia.
  - repeat constructor; lia.
Defined.
